(** * Secure password generator: pool construction, validation, generation

    A shallow embedding of [src/project/core.py] (the same functions are
    duplicated in [src/project/spg.py]) and the properties of its four
    components: [build_pool], [ensure_requirements], [generate_passwords]
    and [bits_of_entropy]. *)

From Stdlib Require Import ZArith String Ascii.
From stdpp Require Import gmap strings list sorting.

Local Open Scope Z_scope.

(** ** Characters and strings

    A Python [str] is a sequence of Unicode code points; a character is
    modelled by its code point, so that [sorted] is the order of [N]. Class
    names and dictionary keys are [string]s. *)

Definition char : Type := N.

Definition chars_of (s : string) : list char :=
  map N_of_ascii (list_ascii_of_string s).

(** [string.ascii_lowercase], [string.ascii_uppercase], [string.digits] *)
Definition string_ascii_lowercase : list char := chars_of "abcdefghijklmnopqrstuvwxyz".
Definition string_ascii_uppercase : list char := chars_of "ABCDEFGHIJKLMNOPQRSTUVWXYZ".
Definition string_digits : list char := chars_of "0123456789".

(** The double quote, code point 34. *)
Definition dquote : char := 34%N.

(** [string.punctuation]: the 32 ASCII punctuation characters, in the order
    of the Python constant. *)
Definition string_punctuation : list char :=
  chars_of "!" ++ dquote :: chars_of "#$%&'()*+,-./:;<=>?@[\]^_`{|}~".

(** [AMBIGUOUS_DEFAULT = set(...)], core.py line 9 *)
Definition AMBIGUOUS_DEFAULT : gset char :=
  list_to_set (chars_of "O0oIl1|`'" ++ dquote :: chars_of "{}[]()/\;:,.<>").

(** [URL_SAFE_UNRESERVED], core.py line 10 *)
Definition URL_SAFE_UNRESERVED : list char :=
  chars_of "ABCDEFGHIJKLMNOPQRSTUVWXYZabcdefghijklmnopqrstuvwxyz0123456789-._~".

(** [set("\r\n\t ")], core.py line 63: CR, LF, TAB, space. *)
Definition whitespace : list char := [13; 10; 9; 32]%N.

(** [sorted(s)] for a set of characters [s]. *)
Definition sorted (s : gset char) : list char := merge_sort N.le (elements s).

(** ** Errors and results

    Every [sys.exit(message)] of the source is one constructor, named after
    the error it reports; the values interpolated in the message are the
    constructor's arguments. The last three are the Python exceptions the
    modelled operations can raise. *)

Inductive error : Type :=
  | EmptySelection                                   (* core.py line 51 *)
  | EmptyPool                                        (* core.py line 66 *)
  | InvalidLength                                    (* core.py line 90 *)
  | PoolTooSmall (length : Z) (pool_size : nat)      (* core.py line 93 *)
  | UnsatisfiableClass (missing : list string)       (* core.py line 102 *)
  | LengthBelowClassCount (length : Z) (needed : nat) (* core.py line 108 *)
  | InsufficientUniqueChars                          (* core.py line 145 *)
  | KeyError (key : string)                          (* pool_map[name] *)
  | IndexError                                       (* choice of an empty sequence, list index *)
  | ValueError.                                      (* randbelow of a non-positive bound *)

Inductive result (A : Type) : Type :=
  | Ok (a : A)
  | Err (e : error).
Arguments Ok {A} a.
Arguments Err {A} e.

(** ** The argument namespace

    [argparse.Namespace] as built by [parse_args]: the same object is handed
    to [build_pool] and to [generate_passwords]. *)

Record args : Type := mk_args {
  length_arg : Z;
  count : Z;
  lower : bool;
  upper : bool;
  digits : bool;
  symbols : bool;
  symbols_set : option (list char);
  exclude : list char;
  no_ambiguous : bool;
  no_repeat : bool;
  require_classes : bool;
  url_safe : bool;
  prefix : list char;
  suffix : list char
}.

(** ** PoolBuilder: [build_pool], core.py lines 20-68 *)

Definition includes_specified (a : args) : bool :=
  lower a || upper a || digits a || symbols a.

(** The [classes] dictionary, in insertion order. *)
Definition classes (a : args) : list (string * list char) :=
  [ ("lower"%string, string_ascii_lowercase);
    ("upper"%string, string_ascii_uppercase);
    ("digits"%string, string_digits);
    ("symbols"%string,
      match symbols_set a with None => string_punctuation | Some s => s end) ].

(** The [selected_classes] dictionary of the non-url-safe branch. *)
Definition selected_classes (a : args) : list (string * bool) :=
  if includes_specified a then
    [ ("lower"%string, lower a); ("upper"%string, upper a);
      ("digits"%string, digits a); ("symbols"%string, symbols a) ]
  else
    [ ("lower"%string, true); ("upper"%string, true);
      ("digits"%string, true); ("symbols"%string, true) ].

(** [d[name]] on a dictionary kept as an association list. *)
Fixpoint assoc {V : Type} (d : list (string * V)) (name : string) : option V :=
  match d with
  | [] => None
  | (k, v) :: d' => if decide (k = name) then Some v else assoc d' name
  end.

(** [[chars for name, chars in classes.items() if selected_classes[name]]] *)
Definition pool_parts_of (a : args) : list (list char) :=
  omap (λ '(name, chars),
          match assoc (selected_classes a) name with
          | Some true => Some chars
          | _ => None
          end) (classes a).

(** [[name for name, ok in selected_classes.items() if ok]] *)
Definition class_names_of (a : args) : list string :=
  omap (λ '(name, ok), if (ok : bool) then Some name else None)
       (selected_classes a).

Definition build_pool (a : args) : result (list char * list string) :=
  let '(pool_parts, class_names) :=
    if url_safe a then ([URL_SAFE_UNRESERVED], ["url_safe"%string])
    else (pool_parts_of a, class_names_of a) in
  match pool_parts with
  | [] => Err EmptySelection
  | _ =>
    let pool : gset char := list_to_set (concat pool_parts) in
    let pool := if no_ambiguous a && negb (url_safe a)
                then pool ∖ AMBIGUOUS_DEFAULT else pool in
    let pool := match exclude a with
                | [] => pool
                | _ => pool ∖ list_to_set (exclude a)
                end in
    let pool := pool ∖ list_to_set whitespace in
    if decide (pool = ∅) then Err EmptyPool
    else Ok (sorted pool, class_names)
  end.

(** ** Class membership: [build_pool_map], core.py lines 71-78 *)

Definition build_pool_map (pool : list char) : gmap string (list char) :=
  {[ "lower"%string :=
       sorted (list_to_set pool ∩ list_to_set string_ascii_lowercase);
     "upper"%string :=
       sorted (list_to_set pool ∩ list_to_set string_ascii_uppercase);
     "digits"%string :=
       sorted (list_to_set pool ∩ list_to_set string_digits);
     "symbols"%string :=
       sorted (list_to_set pool ∩ list_to_set string_punctuation) ]}.

(** ** ConstraintValidator: [ensure_requirements], core.py lines 81-110 *)

(** Python truth value of [pool_map.get(n)], negated: a missing key and an
    empty string both count as missing. *)
Definition is_missing (o : option (list char)) : bool :=
  match o with
  | Some (_ :: _) => false
  | _ => true
  end.

Definition ensure_requirements (length : Z) (class_names : list string)
    (require_classes no_repeat : bool) (pool : list char) : result unit :=
  if length <? 1 then Err InvalidLength
  else if no_repeat && (length >? Z.of_nat (List.length pool)) then
    Err (PoolTooSmall length (List.length pool))
  else if require_classes
          && negb (bool_decide ("url_safe"%string ∈ class_names)) then
    let pool_map := build_pool_map pool in
    let missing := filter (λ n, is_missing (pool_map !! n)) class_names in
    match missing with
    | _ :: _ => Err (UnsatisfiableClass missing)
    | [] =>
      let needed := List.length class_names in
      if length <? Z.of_nat needed then Err (LengthBelowClassCount length needed)
      else Ok tt
    end
  else Ok tt.

(** ** The secure random source

    [secrets.randbelow] and [secrets.choice] read the operating system's
    entropy source. The source is modelled as a tape of naturals, threaded
    through the computation; [randbelow n] consumes one entry and reduces it
    into the range below [n], so that quantifying over all tapes covers
    exactly the outcomes the real source can deliver (every value below [n]
    and no other). An exhausted tape reads as zeros. *)

Definition tape : Type := list nat.

(** State (the tape) and failure (a Python exception or [sys.exit]). *)
Definition M (A : Type) : Type := tape → result (A * tape).

Global Instance M_ret : MRet M := λ A (a : A) t, Ok (a, t).
Global Instance M_bind : MBind M := λ A B (f : A → M B) (c : M A) t,
  match c t with
  | Ok (a, t') => f a t'
  | Err e => Err e
  end.
Definition raise {A : Type} (e : error) : M A := λ _, Err e.

Definition randbelow (n : nat) : M nat :=
  match n with
  | O => raise ValueError
  | S _ => λ t, Ok ((hd 0%nat t) `mod` n, tl t)%nat
  end.

Definition choice {A : Type} (s : list A) : M A :=
  match s with
  | [] => raise IndexError
  | _ :: _ =>
    i ← randbelow (List.length s);
    match s !! i with
    | Some c => mret c
    | None => raise IndexError
    end
  end.

(** [lst[i], lst[j] = lst[j], lst[i]]: both reads, then the write at [i],
    then the write at [j]. *)
Definition swap {A : Type} (lst : list A) (i j : nat) : M (list A) :=
  match lst !! j, lst !! i with
  | Some b, Some a => mret (<[j:=a]> (<[i:=b]> lst))
  | _, _ => raise IndexError
  end.

(** The loop of [secure_shuffle], core.py lines 13-17, with [i] running
    from its first value down to 1. *)
Fixpoint shuffle_from {A : Type} (i : nat) (lst : list A) : M (list A) :=
  match i with
  | O => mret lst
  | S i' =>
    j ← randbelow (i + 1);
    lst' ← swap lst i j;
    shuffle_from i' lst'
  end.

Definition secure_shuffle {A : Type} (lst : list A) : M (list A) :=
  shuffle_from (List.length lst - 1) lst.

(** ** Generator: core.py lines 113-159 *)

(** The loop of [pick_from_each_class], [picks] being the accumulator. *)
Fixpoint pick_loop (class_names : list string)
    (pool_map : gmap string (list char)) (picks : list char) : M (list char) :=
  match class_names with
  | [] => mret picks
  | name :: rest =>
    if decide (name = "url_safe"%string) then pick_loop rest pool_map picks
    else
      match pool_map !! name with
      | None => raise (KeyError name)
      | Some s =>
        c ← choice s;
        pick_loop rest pool_map (picks ++ [c])
      end
  end.

Definition pick_from_each_class (class_names : list string)
    (pool_map : gmap string (list char)) : M (list char) :=
  pick_loop class_names pool_map [].

(** Step 1 of the loop body: the mandatory characters. *)
Definition seed_chars (a : args) (class_names : list string)
    (pool_map : gmap string (list char)) : M (list char) :=
  if require_classes a && negb (url_safe a)
  then pick_from_each_class class_names pool_map
  else mret [].

(** [remaining = args.length - len(chars)], floored at 0. *)
Definition remaining_of (a : args) (chars : list char) : Z :=
  let remaining := length_arg a - Z.of_nat (List.length chars) in
  if remaining <? 0 then 0 else remaining.

(** [[c for c in pool if c not in used]] with [used = set(chars)]. *)
Definition available (pool chars : list char) : list char :=
  let used : gset char := list_to_set chars in
  filter (λ c, c ∉ used) pool.

(** [for _i in range(remaining): chars.append(choice(pool))] *)
Fixpoint fill_with_repeats (n : nat) (pool chars : list char) : M (list char) :=
  match n with
  | O => mret chars
  | S n' =>
    c ← choice pool;
    fill_with_repeats n' pool (chars ++ [c])
  end.

(** Step 3 of the loop body: the fill, in either repeat policy. *)
Definition fill_chars (a : args) (pool chars : list char) (remaining : Z)
    : M (list char) :=
  if no_repeat a then
    av_list ← secure_shuffle (available pool chars);
    if Z.of_nat (List.length av_list) <? remaining
    then raise InsufficientUniqueChars
    else mret (chars ++ take (Z.to_nat remaining) av_list)
  else fill_with_repeats (Z.to_nat remaining) pool chars.

(** One iteration of the loop of [generate_passwords]: the random core. *)
Definition generate_core (pool : list char) (class_names : list string)
    (a : args) (pool_map : gmap string (list char)) : M (list char) :=
  chars ← seed_chars a class_names pool_map;
  chars ← fill_chars a pool chars (remaining_of a chars);
  secure_shuffle chars.

(** [for _ in range(args.count)], [passwords] being the accumulator. *)
Fixpoint generate_loop (n : nat) (pool : list char) (class_names : list string)
    (a : args) (pool_map : gmap string (list char))
    (passwords : list (list char)) : M (list (list char)) :=
  match n with
  | O => mret passwords
  | S n' =>
    core ← generate_core pool class_names a pool_map;
    let pwd := prefix a ++ core ++ suffix a in
    generate_loop n' pool class_names a pool_map (passwords ++ [pwd])
  end.

Definition generate_passwords (pool : list char) (class_names : list string)
    (a : args) : M (list (list char)) :=
  let pool_map := build_pool_map pool in
  generate_loop (Z.to_nat (count a)) pool class_names a pool_map [].

(** ** EntropyEstimator: [bits_of_entropy], core.py lines 162-166

    The result is a Python [float]. The floating-point operations the
    function uses are kept abstract: the zero constant [0.0], the conversion
    of an [int], the product, and [math.log2] applied to an [int]. *)

Class FloatOps (float : Type) : Type := {
  float_zero : float;
  float_of_int : Z → float;
  float_mul : float → float → float;
  math_log2 : Z → float
}.

Definition bits_of_entropy `{FloatOps float} (pool_size length : Z) : float :=
  if (pool_size <=? 1) || (length <=? 0) then float_zero
  else float_mul (float_of_int length) (math_log2 pool_size).

(** ** Output: cli.py lines 43-76

    The output options of the namespace, which the core does not read. *)

Inductive format : Type := plain | json | csv.

Record output_args : Type := mk_output_args {
  format_arg : format;
  separator : list char;
  show_entropy : bool;
  copy : bool
}.

(** What [main] does to the outside: a [print] on standard output, a
    [print] on standard error, a call of [copy_to_clipboard]. *)
Inductive event : Type :=
  | Stdout (text : list char)
  | Stderr (text : list char)
  | Clipboard (text : list char).

Definition comma : char := 44%N.
Definition newline : char := 10%N.

(** The test of cli.py line 47: a comma, a double quote or a newline
    occurs in [p]. *)
Definition needs_quoting (p : list char) : bool :=
  existsb (λ ch, bool_decide (ch ∈ p)) [comma; dquote; newline].

(** The [replace] of cli.py line 48: every double quote is doubled. *)
Definition double_quotes (p : list char) : list char :=
  flat_map (λ c, if decide (c = dquote) then [dquote; dquote] else [c]) p.

(** The text of one row, cli.py lines 47-50. *)
Definition csv_row (p : list char) : list char :=
  if needs_quoting p then [dquote] ++ double_quotes p ++ [dquote] else p.

(** [_print_csv], cli.py lines 43-50: the texts printed, the header
    first. *)
Definition _print_csv (passwords : list (list char)) : list (list char) :=
  chars_of "password" :: map csv_row passwords.

(** [separator.join(pwds)] *)
Fixpoint join (sep : list char) (parts : list (list char)) : list char :=
  match parts with
  | [] => []
  | [x] => x
  | x :: rest => x ++ sep ++ join sep rest
  end.

(** [main], cli.py lines 53-76, from the parsed namespace on. The
    conversion of the entropy to one decimal and [json.dumps] are
    parameters. *)
Section main.
Context `{FloatOps float}.
Variable format_1f : float → list char.
Variable json_dumps : list (list char) → list char.

Definition entropy_message (bits : float) : list char :=
  chars_of "~" ++ format_1f bits
  ++ chars_of " bits of entropy per password (random portion only).".

Definition main (a : args) (o : output_args) : M (list event) :=
  match build_pool a with
  | Err e => raise e
  | Ok (pool, class_names) =>
    match ensure_requirements (length_arg a) class_names (require_classes a)
            (no_repeat a) pool with
    | Err e => raise e
    | Ok _ =>
      pwds ← generate_passwords pool class_names a;
      let shown :=
        if show_entropy o
        then [Stderr (entropy_message
                        (bits_of_entropy (Z.of_nat (List.length pool))
                                         (length_arg a)))]
        else [] in
      let copied :=
        if copy o
        then match pwds with
             | first :: _ => [Clipboard first]
             | [] => []
             end
        else [] in
      printed ←
        match format_arg o with
        | json => mret [Stdout (json_dumps pwds)]
        | csv => mret (map Stdout (_print_csv pwds))
        | plain =>
          if count a =? 1 then
            match pwds !! 0%nat with
            | Some first => mret [Stdout first]
            | None => raise IndexError
            end
          else mret [Stdout (join (separator o) pwds)]
        end;
      mret (shown ++ copied ++ printed)
    end
  end.
End main.

(** ** Derived notions used by the statements *)

(** The texts an event list sends to each destination, in order. *)
Definition stdout_of (events : list event) : list (list char) :=
  omap (λ ev, match ev with Stdout x => Some x | _ => None end) events.
Definition stderr_of (events : list event) : list (list char) :=
  omap (λ ev, match ev with Stderr x => Some x | _ => None end) events.
Definition clipboard_of (events : list event) : list (list char) :=
  omap (λ ev, match ev with Clipboard x => Some x | _ => None end) events.


(** The password built around a core. *)
Definition decorate (a : args) (core : list char) : list char :=
  prefix a ++ core ++ suffix a.

(** Cores of the shape [generate_passwords] produces without seeding: one
    per password, each of the requested length. *)
Definition cores_for (a : args) (cores : list (list char)) : Prop :=
  List.length cores = Z.to_nat (count a) ∧
  Forall (λ core, Z.of_nat (List.length core) = Z.max 0 (length_arg a)) cores.

(** The set of characters [build_pool] is left with after its filters, the
    one it tests for emptiness and sorts. *)
Definition pool_set (a : args) : gset char :=
  let pool_parts :=
    if url_safe a then [URL_SAFE_UNRESERVED] else pool_parts_of a in
  let pool : gset char := list_to_set (concat pool_parts) in
  let pool := if no_ambiguous a && negb (url_safe a)
              then pool ∖ AMBIGUOUS_DEFAULT else pool in
  let pool := pool ∖ list_to_set (exclude a) in
  pool ∖ list_to_set whitespace.

(** The character set that [build_pool_map] intersects the pool with under
    each of its four keys (core.py lines 74-77). *)
Definition class_base (name : string) : option (list char) :=
  if decide (name = "lower"%string) then Some string_ascii_lowercase
  else if decide (name = "upper"%string) then Some string_ascii_uppercase
  else if decide (name = "digits"%string) then Some string_digits
  else if decide (name = "symbols"%string) then Some string_punctuation
  else None.

(** The pool slice of a class: the entry of [build_pool_map], empty for a
    name that is not one of its keys (what [pool_map.get(n)] is tested
    for). *)
Definition class_slice (pool : list char) (name : string) : list char :=
  default [] (build_pool_map pool !! name).

(** A seeded character and the class it was drawn for. *)
Definition drawn_for (pool_map : gmap string (list char))
    (name : string) (c : char) : Prop :=
  ∃ s, pool_map !! name = Some s ∧ c ∈ s.

(** The classes [pick_from_each_class] draws for. *)
Definition seeded_classes (class_names : list string) : list string :=
  filter (λ n, n ≠ "url_safe"%string) class_names.

(** What [seed_chars] leaves in the buffer: one character per seeded
    class when the seeding applies, nothing otherwise. *)
Definition seeds_of (a : args) (pool_map : gmap string (list char))
    (class_names : list string) (seeds : list char) : Prop :=
  if require_classes a && negb (url_safe a)
  then Forall2 (drawn_for pool_map) (seeded_classes class_names) seeds
  else seeds = [].

(** The invariants of the data model, as [build_pool] establishes them: a
    pool has no duplicate and is not empty; the active classes are distinct
    names, and the sentinel [url_safe], when present, stands alone. *)
Definition is_pool (pool : list char) : Prop := NoDup pool ∧ pool ≠ [].

Definition is_active_classes (class_names : list string) : Prop :=
  NoDup class_names ∧
  ("url_safe"%string ∈ class_names → class_names = ["url_safe"%string]).

(** The random core of a password built with the given decorations. *)
Definition core_of (a : args) (pwd : list char) : list char :=
  take (List.length pwd - List.length (prefix a) - List.length (suffix a))
       (drop (List.length (prefix a)) pwd).

(** Whether a class contributes to the pool when [url_safe] is off: its
    flag is set, or no flag is (core.py lines 36-45). *)
Definition class_on (a : args) (flag : bool) : bool :=
  flag || negb (includes_specified a).

(** The characters [build_pool] starts from (core.py lines 31-47, 54). *)
Definition candidate (a : args) (c : char) : Prop :=
  if url_safe a then c ∈ URL_SAFE_UNRESERVED
  else (class_on a (lower a) = true ∧ c ∈ string_ascii_lowercase) ∨
       (class_on a (upper a) = true ∧ c ∈ string_ascii_uppercase) ∨
       (class_on a (digits a) = true ∧ c ∈ string_digits) ∨
       (class_on a (symbols a) = true ∧
        c ∈ match symbols_set a with
            | None => string_punctuation
            | Some s => s
            end).

(** The characters its filters remove (core.py lines 56-63). *)
Definition filtered_out (a : args) (c : char) : Prop :=
  (no_ambiguous a = true ∧ url_safe a = false ∧ c ∈ AMBIGUOUS_DEFAULT) ∨
  c ∈ exclude a ∨ c ∈ whitespace.

(** ** Sample inputs *)

(** [--symbols --symbols-set ! --exclude !]: every candidate is excluded. *)
Definition all_excluded_args : args :=
  mk_args 16 1 false false false true (Some (chars_of "!")) (chars_of "!")
          false false false false [] [].

(** [--lower --digits --require-classes -l 1], not validated. *)
Definition short_args : args :=
  mk_args 1 1 true false true false None [] false false true false [] [].

(** [--lower --digits --require-classes --no-repeat -l 3] on a pool of
    three characters. *)
Definition full_length_args : args :=
  mk_args 3 1 true false true false None [] false true true false [] [].

(** [--lower -l 2 -n 2], repeats allowed, and the same with
    [--no-repeat]. *)
Definition two_by_two_args : args :=
  mk_args 2 2 true false false false None [] false false false false [] [].
Definition two_by_two_no_repeat_args : args :=
  mk_args 2 2 true false false false None [] false true false false [] [].

Definition main_sample_output_args : output_args :=
  mk_output_args plain [newline] true true.

(** [--lower --digits --exclude abc --no-ambiguous -l 4 -n 1] *)
Definition filtered_args : args :=
  mk_args 4 1 true false true false None (chars_of "abc")
          true false false false [] [].

(** No option given: every flag off, length 16, one password. *)
Definition all_classes_args : args :=
  mk_args 16 1 false false false false None [] false false false false [] [].

(** [--url-safe --require-classes -l 10] *)
Definition url_safe_args : args :=
  mk_args 10 1 false false false false None [] false false true true [] [].

(** [--symbols --symbols-set abc --require-classes -l 3] *)
Definition symbols_override_args : args :=
  mk_args 3 1 false false false true (Some (chars_of "abc")) []
          false false true false [] [].

(** [--lower --digits --require-classes --no-repeat -l 5 -n 2] with a
    prefix and a suffix, on a pool of eight characters, and the draws of
    one run. *)
Definition sample_pool : list char := chars_of "abcdef01".
Definition sample_classes : list string := ["lower"; "digits"]%string.
Definition sample_args : args :=
  mk_args 5 2 true false true false None [] false true true false
          (chars_of "<") (chars_of ">").
Definition sample_tape : tape :=
  [3; 1; 4; 1; 5; 9; 2; 6; 5; 3; 5; 8; 9; 7; 9]%nat.
Definition sample_passwords : list (list char) :=
  [chars_of "<ecda1>"; chars_of "<10dec>"].

(** An instance of the operations for evaluation: integers, with the floor
    of the logarithm. *)
Definition Z_FloatOps : FloatOps Z :=
  {| float_zero := 0; float_of_int := id; float_mul := Z.mul;
     math_log2 := Z.log2 |}.

(** * Properties *)

(** Close a decidable goal on closed terms by evaluation. *)
Ltac decide_by_vm := apply (bool_decide_unpack _); vm_compute; exact I.

(** ** The result monad *)

Lemma bind_Ok {A B : Type} (c : M A) (f : A → M B) (t : tape) (r : B * tape) :
  (c ≫= f) t = Ok r ↔ ∃ a t', c t = Ok (a, t') ∧ f a t' = Ok r.
Proof.
  unfold mbind, M_bind. split.
  - destruct (c t) as [[a t']|e]; [eauto | discriminate].
  - intros (a & t' & -> & Hf). exact Hf.
Qed.

Lemma ret_Ok {A : Type} (a : A) (t : tape) (r : A * tape) :
  mret (M := M) a t = Ok r ↔ r = (a, t).
Proof. unfold mret, M_ret. split; [by intros [= <-] | by intros ->]. Qed.

(** ** The random source: ranges, membership, totality *)

Lemma randbelow_Ok (n : nat) (t : tape) (j : nat) (t' : tape) :
  randbelow n t = Ok (j, t') → (j < n)%nat.
Proof.
  destruct n as [|n]; [discriminate|]. intros [= <- _].
  apply (Nat.mod_upper_bound (hd 0%nat t) (S n)). lia.
Qed.

Lemma randbelow_total (n : nat) (t : tape) :
  (0 < n)%nat → ∃ j t', randbelow n t = Ok (j, t').
Proof. destruct n as [|n]; [lia|]. intros _. simpl. eauto. Qed.

Lemma choice_Ok {A : Type} (s : list A) (t : tape) (c : A) (t' : tape) :
  choice s t = Ok (c, t') → c ∈ s.
Proof.
  destruct s as [|x s]; [discriminate|]. unfold choice. intros Hrun.
  apply bind_Ok in Hrun as (i & t1 & _ & Hrun).
  destruct ((x :: s) !! i) as [c'|] eqn:Hi; [|discriminate].
  apply ret_Ok in Hrun as [= -> _]. eapply list_elem_of_lookup_2, Hi.
Qed.

Lemma choice_total {A : Type} (s : list A) (t : tape) :
  s ≠ [] → ∃ c t', choice s t = Ok (c, t').
Proof.
  destruct s as [|x s]; [done|]. intros _.
  destruct (randbelow_total (List.length (x :: s)) t) as (i & t1 & Hi);
    [simpl; lia|].
  destruct (lookup_lt_is_Some_2 (x :: s) i) as [c Hc];
    [eapply randbelow_Ok, Hi|].
  exists c, t1. unfold choice. apply bind_Ok. exists i, t1. split; [done|].
  by rewrite Hc.
Qed.

Lemma swap_Ok {A : Type} (lst : list A) (i j : nat) (t : tape)
    (lst' : list A) (t' : tape) :
  swap lst i j t = Ok (lst', t') → lst' ≡ₚ lst ∧ t' = t.
Proof.
  unfold swap. destruct (lst !! j) as [b|] eqn:Hj; [|discriminate].
  destruct (lst !! i) as [a|] eqn:Hi; [|discriminate].
  intros [= -> ->]%ret_Ok. split; [|done].
  by apply Permutation_insert_swap.
Qed.

Lemma swap_total {A : Type} (lst : list A) (i j : nat) (t : tape) :
  (i < List.length lst)%nat → (j < List.length lst)%nat →
  ∃ lst', swap lst i j t = Ok (lst', t).
Proof.
  intros [a Ha]%lookup_lt_is_Some_2 [b Hb]%lookup_lt_is_Some_2.
  unfold swap. rewrite Ha, Hb. eauto.
Qed.

Lemma shuffle_from_Ok {A : Type} (i : nat) (lst : list A) (t : tape)
    (lst' : list A) (t' : tape) :
  shuffle_from i lst t = Ok (lst', t') → lst' ≡ₚ lst.
Proof.
  revert lst t. induction i as [|i IH]; intros lst t Hrun.
  - by apply ret_Ok in Hrun as [= -> _].
  - cbn [shuffle_from] in Hrun.
    apply bind_Ok in Hrun as (j & t1 & _ & Hrun).
    apply bind_Ok in Hrun as (l1 & t2 & [Hperm _]%swap_Ok & Hrun).
    rewrite <- Hperm. eapply IH, Hrun.
Qed.

Lemma shuffle_from_total {A : Type} (i : nat) (lst : list A) (t : tape) :
  (i < List.length lst)%nat ∨ i = 0%nat →
  ∃ lst' t', shuffle_from i lst t = Ok (lst', t').
Proof.
  revert lst t. induction i as [|i IH]; intros lst t Hi.
  - exists lst, t. done.
  - destruct Hi as [Hi|]; [|lia].
    destruct (randbelow_total (S i + 1) t) as (j & t1 & Hj); [lia|].
    pose proof (randbelow_Ok _ _ _ _ Hj) as Hlt.
    destruct (swap_total lst (S i) j t1) as (l1 & Hsw); [lia..|].
    destruct (IH l1 t1) as (l2 & t2 & Hrec).
    { left. apply swap_Ok in Hsw as [Hperm _].
      rewrite (Permutation_length Hperm). lia. }
    exists l2, t2. cbn [shuffle_from].
    apply bind_Ok. exists j, t1. split; [done|].
    apply bind_Ok. exists l1, t1. split; done.
Qed.

Lemma secure_shuffle_Ok {A : Type} (lst : list A) (t : tape)
    (lst' : list A) (t' : tape) :
  secure_shuffle lst t = Ok (lst', t') → lst' ≡ₚ lst.
Proof. apply shuffle_from_Ok. Qed.

Lemma secure_shuffle_total {A : Type} (lst : list A) (t : tape) :
  ∃ lst' t', secure_shuffle lst t = Ok (lst', t').
Proof.
  apply shuffle_from_total. destruct lst; simpl; [by right | left; lia].
Qed.

(** ** Sorting a set *)

Lemma sorted_Permutation (s : gset char) : sorted s ≡ₚ elements s.
Proof. apply merge_sort_Permutation. Qed.

Lemma elem_of_sorted (s : gset char) (c : char) : c ∈ sorted s ↔ c ∈ s.
Proof. by rewrite sorted_Permutation, elem_of_elements. Qed.

Lemma NoDup_sorted (s : gset char) : NoDup (sorted s).
Proof. rewrite sorted_Permutation. apply NoDup_elements. Qed.

Lemma Sorted_sorted (s : gset char) : Sorted N.le (sorted s).
Proof. apply (Sorted_merge_sort N.le). Qed.

Lemma sorted_nil (s : gset char) : sorted s = [] ↔ s = ∅.
Proof.
  split.
  - intros Hnil. apply set_eq. intros c. rewrite <- elem_of_sorted, Hnil.
    set_solver.
  - intros ->. reflexivity.
Qed.

(** ** PoolBuilder *)

(** The two comprehensions of the non-url-safe branch select the same
    dictionary entries. *)
Lemma pool_parts_class_names (a : args) :
  List.length (pool_parts_of a) = List.length (class_names_of a).
Proof.
  unfold pool_parts_of, class_names_of, selected_classes, classes,
    includes_specified.
  destruct (lower a), (upper a), (digits a), (symbols a); reflexivity.
Qed.

Lemma class_names_of_nonempty (a : args) : class_names_of a ≠ [].
Proof.
  unfold class_names_of, selected_classes, includes_specified.
  destruct (lower a), (upper a), (digits a), (symbols a); discriminate.
Qed.

Lemma build_pool_unfold (a : args) :
  build_pool a =
    if decide (pool_set a = ∅) then Err EmptyPool
    else Ok (sorted (pool_set a),
             if url_safe a then ["url_safe"%string] else class_names_of a).
Proof.
  unfold build_pool, pool_set.
  assert (Hexcl : ∀ s : gset char,
    match exclude a with [] => s | _ => s ∖ list_to_set (exclude a) end
    = s ∖ list_to_set (exclude a)).
  { intros s. destruct (exclude a); [|done].
    cbn [list_to_set foldr]. by rewrite difference_empty_L. }
  destruct (url_safe a).
  - cbn [concat]. rewrite Hexcl. reflexivity.
  - pose proof (pool_parts_class_names a) as Hlen.
    pose proof (class_names_of_nonempty a) as Hne.
    destruct (pool_parts_of a) as [|p ps].
    + destruct (class_names_of a); [done | discriminate].
    + rewrite Hexcl. reflexivity.
Qed.

Lemma build_pool_Ok (a : args) (pool : list char) (class_names : list string) :
  build_pool a = Ok (pool, class_names) →
  pool = sorted (pool_set a) ∧ pool_set a ≠ ∅ ∧
  class_names = (if url_safe a then ["url_safe"%string] else class_names_of a).
Proof.
  rewrite build_pool_unfold. case_decide; [discriminate|].
  by intros [= <- <-].
Qed.

Lemma pool_set_no_whitespace (a : args) (c : char) :
  c ∈ pool_set a → c ∉ whitespace.
Proof.
  unfold pool_set. intros [_ Hws]%elem_of_difference.
  by rewrite elem_of_list_to_set in Hws.
Qed.

(** C7: on success, [build_pool] returns a pool that is sorted, free of
    duplicates, free of whitespace (space, tab, CR, LF) and non-empty,
    together with a non-empty list of active classes. *)
Theorem build_pool_invariants (a : args) (pool : list char)
    (class_names : list string) :
  build_pool a = Ok (pool, class_names) →
  Sorted N.le pool ∧ NoDup pool ∧ (∀ c, c ∈ whitespace → c ∉ pool) ∧
  pool ≠ [] ∧ class_names ≠ [].
Proof.
  intros (-> & Hne & ->)%build_pool_Ok. repeat split.
  - apply Sorted_sorted.
  - apply NoDup_sorted.
  - intros c Hws Hc%elem_of_sorted. by eapply pool_set_no_whitespace.
  - by rewrite sorted_nil.
  - destruct (url_safe a); [done | apply class_names_of_nonempty].
Qed.

Lemma build_pool_invariants_witness :
  let pool := chars_of "!" ++ dquote :: chars_of
    "#$%&'()*+,-./0123456789:;<=>?@ABCDEFGHIJKLMNOPQRSTUVWXYZ[\]^_`abcdefghijklmnopqrstuvwxyz{|}~" in
  Sorted N.le pool ∧ NoDup pool ∧ (∀ c, c ∈ whitespace → c ∉ pool) ∧
  pool ≠ [] ∧ ["lower"; "upper"; "digits"; "symbols"]%string ≠ [].
Proof.
  apply (build_pool_invariants all_classes_args). vm_compute. reflexivity.
Defined.

(** C4: with [url_safe] requested and nothing excluded, [build_pool]
    succeeds whatever the other flags are; the pool is the sorted sequence
    of the 66 characters of [URL_SAFE_UNRESERVED] (26 + 26 + 10 + 4), the
    active classes are
    the single sentinel, and generation seeds no per-class character even
    when [require_classes] is set. *)
Theorem build_pool_url_safe (a : args) :
  url_safe a = true → exclude a = [] →
  let pool := sorted (list_to_set URL_SAFE_UNRESERVED) in
  build_pool a = Ok (pool, ["url_safe"%string]) ∧
  pool ≡ₚ URL_SAFE_UNRESERVED ∧ List.length pool = 66%nat ∧
  (∀ class_names pool_map t,
     seed_chars a class_names pool_map t = Ok ([], t)) ∧
  (∀ pool_map t,
     pick_from_each_class ["url_safe"%string] pool_map t = Ok ([], t)).
Proof.
  intros Hurl Hexcl pool.
  assert (Hset : pool_set a = list_to_set URL_SAFE_UNRESERVED).
  { unfold pool_set. rewrite Hurl, Hexcl, andb_false_r.
    vm_compute. reflexivity. }
  split; [|split; [|split; [|split]]].
  - rewrite build_pool_unfold, Hset, Hurl. case_decide as Hempty; [|done].
    exfalso. revert Hempty. vm_compute. discriminate.
  - unfold pool. rewrite sorted_Permutation. apply elements_list_to_set.
    apply (bool_decide_unpack _). vm_compute. exact I.
  - vm_compute. reflexivity.
  - intros cn pm t. unfold seed_chars. by rewrite Hurl, andb_false_r.
  - reflexivity.
Qed.

Lemma build_pool_url_safe_witness :
  let pool := sorted (list_to_set URL_SAFE_UNRESERVED) in
  build_pool url_safe_args = Ok (pool, ["url_safe"%string]) ∧
  pool ≡ₚ URL_SAFE_UNRESERVED ∧ List.length pool = 66%nat ∧
  (∀ class_names pool_map t,
     seed_chars url_safe_args class_names pool_map t = Ok ([], t)) ∧
  (∀ pool_map t,
     pick_from_each_class ["url_safe"%string] pool_map t = Ok ([], t)).
Proof. apply (build_pool_url_safe url_safe_args); reflexivity. Defined.

(** C4, as first stated, gives the pool 64 characters: on the selection
    [{url_safe: true}] with nothing excluded the pool returned is the one
    below, of 66 characters. *)
Lemma build_pool_url_safe_not_64 :
  url_safe url_safe_args = true ∧ exclude url_safe_args = [] ∧
  build_pool url_safe_args =
    Ok (chars_of
          "-.0123456789ABCDEFGHIJKLMNOPQRSTUVWXYZ_abcdefghijklmnopqrstuvwxyz~",
        ["url_safe"%string]) ∧
  ¬ (∃ pool class_names,
       build_pool url_safe_args = Ok (pool, class_names) ∧
       List.length pool = 64%nat).
Proof.
  split; [done|]. split; [done|].
  assert (Hrun : build_pool url_safe_args =
    Ok (chars_of
          "-.0123456789ABCDEFGHIJKLMNOPQRSTUVWXYZ_abcdefghijklmnopqrstuvwxyz~",
        ["url_safe"%string])) by (vm_compute; reflexivity).
  split; [exact Hrun|].
  intros (pool & cn & Hpool & Hlen). rewrite Hrun in Hpool.
  injection Hpool as <- _. vm_compute in Hlen. discriminate.
Qed.

(** C6, as first stated, makes [build_pool] fail with [EmptySelection]
    when no class flag is set and [url_safe] is off: on that selection it
    succeeds, with all four classes active. *)
Lemma build_pool_no_flags_succeeds :
  url_safe all_classes_args = false ∧
  includes_specified all_classes_args = false ∧
  build_pool all_classes_args =
    Ok (chars_of "!" ++ dquote :: chars_of
          "#$%&'()*+,-./0123456789:;<=>?@ABCDEFGHIJKLMNOPQRSTUVWXYZ[\]^_`abcdefghijklmnopqrstuvwxyz{|}~",
        ["lower"; "upper"; "digits"; "symbols"]%string) ∧
  build_pool all_classes_args ≠ Err EmptySelection.
Proof.
  split; [done|]. split; [done|].
  assert (Hrun : build_pool all_classes_args =
    Ok (chars_of "!" ++ dquote :: chars_of
          "#$%&'()*+,-./0123456789:;<=>?@ABCDEFGHIJKLMNOPQRSTUVWXYZ[\]^_`abcdefghijklmnopqrstuvwxyz{|}~",
        ["lower"; "upper"; "digits"; "symbols"]%string))
    by (vm_compute; reflexivity).
  split; [exact Hrun|]. rewrite Hrun. discriminate.
Qed.

(** C6, amended: when [url_safe] is off and none of the four class flags
    is set, [build_pool] does not fail with [EmptySelection]; all four
    classes are active by default, so it either succeeds with the active
    classes lower, upper, digits, symbols, or fails with [EmptyPool]
    because the filters removed every character. *)
Theorem build_pool_default_classes (a : args) :
  url_safe a = false → includes_specified a = false →
  build_pool a ≠ Err EmptySelection ∧
  (build_pool a = Err EmptyPool ∨
   ∃ pool, build_pool a =
             Ok (pool, ["lower"; "upper"; "digits"; "symbols"]%string)).
Proof.
  intros Hurl Hnone. rewrite build_pool_unfold, Hurl.
  assert (Hnames : class_names_of a
                   = ["lower"; "upper"; "digits"; "symbols"]%string).
  { unfold class_names_of, selected_classes. by rewrite Hnone. }
  rewrite Hnames. case_decide.
  - split; [discriminate | by left].
  - split; [discriminate | right; eauto].
Qed.

Lemma build_pool_default_classes_witness :
  build_pool all_classes_args ≠ Err EmptySelection ∧
  (build_pool all_classes_args = Err EmptyPool ∨
   ∃ pool, build_pool all_classes_args =
             Ok (pool, ["lower"; "upper"; "digits"; "symbols"]%string)).
Proof. apply (build_pool_default_classes all_classes_args); reflexivity. Defined.

(** ** Class membership *)

Lemma build_pool_map_lookup (pool : list char) (name : string) :
  build_pool_map pool !! name =
    (λ base, sorted (list_to_set pool ∩ list_to_set base)) <$> class_base name.
Proof.
  unfold build_pool_map, class_base.
  repeat case_decide; simplify_map_eq; done.
Qed.

Lemma elem_of_slice (pool : list char) (name : string) (s : list char)
    (c : char) :
  build_pool_map pool !! name = Some s →
  c ∈ s ↔ c ∈ pool ∧ ∃ base, class_base name = Some base ∧ c ∈ base.
Proof.
  rewrite build_pool_map_lookup.
  destruct (class_base name) as [base|]; [|discriminate].
  intros [= <-]. rewrite elem_of_sorted, elem_of_intersection,
    !elem_of_list_to_set.
  split; [intros [??]; eauto | intros (? & b & [= <-] & ?); done].
Qed.

Lemma slice_subseteq_pool (pool : list char) (name : string) (s : list char)
    (c : char) :
  build_pool_map pool !! name = Some s → c ∈ s → c ∈ pool.
Proof. intros Hs Hc. by apply (elem_of_slice _ _ _ _ Hs) in Hc as [? _]. Qed.

(** The four base sets are pairwise disjoint. *)
Lemma class_base_disjoint (n1 n2 : string) (b1 b2 : list char) (c : char) :
  n1 ≠ n2 → class_base n1 = Some b1 → class_base n2 = Some b2 →
  c ∈ b1 → c ∈ b2 → False.
Proof.
  intros Hne H1 H2 Hc1 Hc2.
  assert (Hdisj : Forall (λ x, x ∉ b2) b1).
  { unfold class_base in H1, H2.
    repeat case_decide; simplify_eq;
      apply (bool_decide_unpack _); vm_compute; exact I. }
  rewrite Forall_forall in Hdisj. by apply (Hdisj c).
Qed.

Lemma slices_disjoint (pool : list char) (n1 n2 : string)
    (s1 s2 : list char) (c : char) :
  n1 ≠ n2 →
  build_pool_map pool !! n1 = Some s1 → build_pool_map pool !! n2 = Some s2 →
  c ∈ s1 → c ∈ s2 → False.
Proof.
  intros Hne H1 H2 Hc1 Hc2.
  apply (elem_of_slice _ _ _ _ H1) in Hc1 as (_ & b1 & Hb1 & Hc1).
  apply (elem_of_slice _ _ _ _ H2) in Hc2 as (_ & b2 & Hb2 & Hc2).
  eapply class_base_disjoint; eauto.
Qed.

Lemma is_missing_slice (pool : list char) (name : string) :
  is_missing (build_pool_map pool !! name) = true ↔ class_slice pool name = [].
Proof.
  unfold class_slice. destruct (build_pool_map pool !! name) as [[|c s]|];
    simpl; split; done.
Qed.

(** C5: the claim lets the symbols slice follow the caller's override of
    the symbols set. [build_pool] does ([classes], core.py line 28), but
    [build_pool_map] intersects with [string.punctuation] whatever the
    override was. On [--symbols --symbols-set abc] the pool is [abc], built
    from the symbols class alone, yet its symbols slice is empty, and
    [--require-classes] is rejected with the symbols class reported as
    empty after filters. *)
Theorem build_pool_map_ignores_symbols_set :
  build_pool symbols_override_args
    = Ok (chars_of "abc", ["symbols"%string]) ∧
  build_pool_map (chars_of "abc") !! "symbols"%string = Some [] ∧
  sorted (list_to_set (chars_of "abc") ∩ list_to_set (chars_of "abc"))
    = chars_of "abc" ∧
  ensure_requirements 3 ["symbols"%string] true false (chars_of "abc")
    = Err (UnsatisfiableClass ["symbols"%string]).
Proof. repeat split; vm_compute; reflexivity. Qed.

(** ** ConstraintValidator *)

Lemma missing_filter (pool : list char) (class_names : list string) :
  filter (λ n, is_missing (build_pool_map pool !! n)) class_names
  = filter (λ n, class_slice pool n = []) class_names.
Proof.
  apply list_filter_iff. intros n. rewrite <- is_missing_slice.
  destruct (is_missing _); simpl; split; done.
Qed.

Lemma filter_nil_iff {A : Type} (P : A → Prop) `{∀ x, Decision (P x)}
    (l : list A) :
  filter P l = [] ↔ ∀ x, x ∈ l → ¬ P x.
Proof.
  split.
  - intros Hnil x Hx HP. by apply (filter_nil_not_elem_of _ _ x Hnil HP).
  - intros Hall. induction l as [|x l IH]; [done|].
    rewrite filter_cons. destruct (decide (P x)) as [HP|_].
    + exfalso. apply (Hall x); [left | done].
    + apply IH. intros y Hy. apply Hall. by right.
Qed.

Lemma filter_not_nil_iff {A : Type} (P : A → Prop) `{∀ x, Decision (P x)}
    (l : list A) :
  filter P l ≠ [] ↔ ∃ x, x ∈ l ∧ P x.
Proof.
  split.
  - destruct (filter P l) as [|x e] eqn:He; [done|]. intros _.
    assert (Hx : x ∈ filter P l) by (rewrite He; left).
    apply list_elem_of_filter in Hx as [??]. eauto.
  - intros (x & Hx & HP) Hnil. by apply (filter_nil_not_elem_of _ _ x Hnil HP).
Qed.

(** The six paths through [ensure_requirements]. *)
Lemma ensure_requirements_cases (length : Z) (class_names : list string)
    (require_classes no_repeat : bool) (pool : list char) :
  let r := ensure_requirements length class_names require_classes no_repeat
             pool in
  let too_small := no_repeat = true ∧ length > Z.of_nat (List.length pool) in
  let checks_classes :=
    require_classes = true ∧ "url_safe"%string ∉ class_names in
  let empty := filter (λ n, class_slice pool n = []) class_names in
  (length < 1 ∧ r = Err InvalidLength) ∨
  (1 ≤ length ∧ too_small ∧
     r = Err (PoolTooSmall length (List.length pool))) ∨
  (1 ≤ length ∧ ¬ too_small ∧ checks_classes ∧ empty ≠ [] ∧
     r = Err (UnsatisfiableClass empty)) ∨
  (1 ≤ length ∧ ¬ too_small ∧ checks_classes ∧ empty = [] ∧
     length < Z.of_nat (List.length class_names) ∧
     r = Err (LengthBelowClassCount length (List.length class_names))) ∨
  (1 ≤ length ∧ ¬ too_small ∧ checks_classes ∧ empty = [] ∧
     Z.of_nat (List.length class_names) ≤ length ∧ r = Ok tt) ∨
  (1 ≤ length ∧ ¬ too_small ∧ ¬ checks_classes ∧ r = Ok tt).
Proof.
  intros r too_small checks_classes empty.
  subst r too_small checks_classes. unfold ensure_requirements.
  rewrite missing_filter. fold empty. clearbody empty.
  destruct (Z.ltb_spec length 1) as [Hlen|Hlen]; [by left|]. right.
  destruct no_repeat; simpl.
  - destruct (Z.gtb_spec length (Z.of_nat (List.length pool))) as [Hgt|Hgt].
    { left. repeat split; [done | lia]. }
    right. assert (Hsmall : ¬ (true = true ∧ length > Z.of_nat (List.length pool)))
      by (intros [_ ?]; lia).
    destruct require_classes; simpl.
    + destruct (bool_decide_reflect ("url_safe"%string ∈ class_names))
        as [Hin|Hin]; simpl.
      { do 3 right. repeat split; try done. by intros [_ ?]. }
      destruct empty as [|n0 e0].
      * right. destruct (Z.ltb_spec length (Z.of_nat (List.length class_names)));
          [left | right; left]; repeat split; done.
      * left. repeat split; done.
    + do 3 right. repeat split; try done. by intros [? _].
  - right. assert (Hsmall : ¬ (false = true ∧ length > Z.of_nat (List.length pool)))
      by (by intros [? _]).
    destruct require_classes; simpl.
    + destruct (bool_decide_reflect ("url_safe"%string ∈ class_names))
        as [Hin|Hin]; simpl.
      { do 3 right. repeat split; try done. by intros [_ ?]. }
      destruct empty as [|n0 e0].
      * right. destruct (Z.ltb_spec length (Z.of_nat (List.length class_names)));
          [left | right; left]; repeat split; done.
      * left. repeat split; done.
    + do 3 right. repeat split; try done. by intros [? _].
Qed.

(** C3: the outcome of [ensure_requirements] in every case. A class counts
    as empty when its pool slice is; the active classes count as the
    [url_safe] sentinel when that name occurs among them, which is the test
    the code performs. *)
Theorem ensure_requirements_spec (length : Z) (class_names : list string)
    (require_classes no_repeat : bool) (pool : list char) :
  let r := ensure_requirements length class_names require_classes no_repeat
             pool in
  let too_small := no_repeat = true ∧ length > Z.of_nat (List.length pool) in
  let checks_classes :=
    require_classes = true ∧ "url_safe"%string ∉ class_names in
  let empty := filter (λ n, class_slice pool n = []) class_names in
  (r = Err InvalidLength ↔ length < 1) ∧
  (∀ l p, r = Err (PoolTooSmall l p) ↔
     1 ≤ length ∧ too_small ∧ l = length ∧ p = List.length pool) ∧
  (∀ missing, r = Err (UnsatisfiableClass missing) ↔
     1 ≤ length ∧ ¬ too_small ∧ checks_classes ∧
     (∃ n, n ∈ class_names ∧ class_slice pool n = []) ∧ missing = empty) ∧
  (∀ l k, r = Err (LengthBelowClassCount l k) ↔
     1 ≤ length ∧ ¬ too_small ∧ checks_classes ∧
     (∀ n, n ∈ class_names → class_slice pool n ≠ []) ∧
     length < Z.of_nat (List.length class_names) ∧
     l = length ∧ k = List.length class_names) ∧
  (r = Ok tt ↔
     1 ≤ length ∧ ¬ too_small ∧
     (checks_classes →
        (∀ n, n ∈ class_names → class_slice pool n ≠ []) ∧
        Z.of_nat (List.length class_names) ≤ length)).
Proof.
  intros r too_small checks_classes empty.
  pose proof (filter_nil_iff (λ n, class_slice pool n = []) class_names)
    as Hnil.
  pose proof (filter_not_nil_iff (λ n, class_slice pool n = []) class_names)
    as Hcons.
  fold empty in Hnil, Hcons.
  pose proof (ensure_requirements_cases length class_names require_classes
                no_repeat pool) as Hcases.
  cbv zeta in Hcases. fold empty too_small checks_classes r in Hcases.
  clearbody r empty too_small checks_classes.
  cbn beta in Hnil, Hcons.
  assert (Hex : (∃ n, n ∈ class_names ∧ class_slice pool n = []) →
                (∀ n, n ∈ class_names → class_slice pool n ≠ []) → False).
  { intros (n & Hn & Hs) Hall. exact (Hall n Hn Hs). }
  destruct Hcases as
    [(Hlen & ->) | [(Hlen & Hsmall & ->) | [(Hlen & Hsmall & Hchk & He & ->)
    | [(Hlen & Hsmall & Hchk & He & Hk & ->)
    | [(Hlen & Hsmall & Hchk & He & Hk & ->) | (Hlen & Hsmall & Hchk & ->)]]]]].
  3: apply (proj1 Hcons) in He.
  4-5: pose proof (proj1 Hnil He) as Hall.
  all: split_and!; intros; (split; [intros Heq | intros Hc]).
  all: try discriminate Heq; try (injection Heq as <-); try (injection Heq as <- <-).
  all: destruct_and?; simplify_eq; split_and?; try done; try lia.
  all: try (intros _; split; [assumption | lia]).
  all: exfalso; try contradiction; try (by apply Hex).
  all: match goal with H : ?c → _ ∧ _, Hc : ?c |- _ =>
         destruct (H Hc) as [? ?]; first [lia | by apply Hex] end.
Qed.

(** The two validation scenarios of the specification: length 2 with
    three required classes, and no-repeat with length 6 on a pool of 5. *)
Lemma ensure_requirements_spec_witness :
  ensure_requirements 2 ["lower"; "upper"; "digits"]%string true false
    (chars_of "aA0") = Err (LengthBelowClassCount 2 3) ∧
  ensure_requirements 6 ["lower"]%string false true (chars_of "abcde")
    = Err (PoolTooSmall 6 5).
Proof.
  split.
  - apply (ensure_requirements_spec 2 ["lower"; "upper"; "digits"]%string
             true false (chars_of "aA0")).
    split_and!;
      [lia | by intros [? _] | done | decide_by_vm | | simpl; lia | done..].
    intros n Hn. revert n Hn. apply Forall_forall. decide_by_vm.
  - apply (ensure_requirements_spec 6 ["lower"]%string false true
             (chars_of "abcde")).
    split_and!; [lia | done | simpl; lia | done..].
Defined.

(** ** Generator: the mandatory characters *)

Lemma pick_loop_Ok (class_names : list string)
    (pool_map : gmap string (list char)) (picks : list char) (t : tape)
    (picks' : list char) (t' : tape) :
  pick_loop class_names pool_map picks t = Ok (picks', t') →
  ∃ new, picks' = picks ++ new ∧
         Forall2 (drawn_for pool_map) (seeded_classes class_names) new.
Proof.
  revert picks t. induction class_names as [|name rest IH]; intros picks t Hrun.
  - apply ret_Ok in Hrun as [= -> _]. exists []. split; [by rewrite app_nil_r|].
    constructor.
  - cbn [pick_loop] in Hrun. unfold seeded_classes. rewrite filter_cons.
    destruct (decide (name = "url_safe"%string)) as [->|Hname].
    + rewrite decide_False by (intros Hne; by apply Hne). by apply IH in Hrun.
    + rewrite decide_True by done.
      destruct (pool_map !! name) as [s|] eqn:Hs; [|discriminate].
      apply bind_Ok in Hrun as (c & t1 & Hc%choice_Ok & Hrun).
      apply IH in Hrun as (new & -> & Hnew).
      exists (c :: new). split; [by rewrite <- app_assoc|].
      constructor; [by exists s | done].
Qed.

Lemma pick_loop_total (class_names : list string)
    (pool_map : gmap string (list char)) (picks : list char) (t : tape) :
  (∀ n, n ∈ class_names → n ≠ "url_safe"%string →
        ∃ s, pool_map !! n = Some s ∧ s ≠ []) →
  ∃ picks' t', pick_loop class_names pool_map picks t = Ok (picks', t').
Proof.
  revert picks t. induction class_names as [|name rest IH]; intros picks t Hall.
  - exists picks, t. done.
  - cbn [pick_loop].
    assert (Hrest : ∀ n, n ∈ rest → n ≠ "url_safe"%string →
                         ∃ s, pool_map !! n = Some s ∧ s ≠ []).
    { intros n Hn. apply Hall. by right. }
    destruct (decide (name = "url_safe"%string)) as [->|Hname]; [by apply IH|].
    destruct (Hall name) as (s & Hs & Hne); [by left | done |]. rewrite Hs.
    destruct (choice_total s t Hne) as (c & t1 & Hc).
    destruct (IH (picks ++ [c]) t1 Hrest) as (picks' & t' & Hrec).
    exists picks', t'. apply bind_Ok. eauto.
Qed.

(** Characters drawn for distinct classes are distinct, the slices being
    pairwise disjoint. *)
Lemma drawn_NoDup (pool : list char) (names : list string)
    (picks : list char) :
  NoDup names → Forall2 (drawn_for (build_pool_map pool)) names picks →
  NoDup picks.
Proof.
  intros Hnd Hdrawn. induction Hdrawn as [|n c names picks Hc Hrest IH].
  - constructor.
  - apply NoDup_cons in Hnd as [Hn Hnd]. constructor; [|by apply IH].
    intros Hin. apply list_elem_of_lookup in Hin as [i Hi].
    destruct (Forall2_lookup_r _ _ _ _ _ Hrest Hi) as (n' & Hn' & Hc').
    destruct Hc as (s & Hs & Hcs), Hc' as (s' & Hs' & Hcs').
    apply (slices_disjoint pool n n' s s' c); try done.
    intros ->. apply Hn. eapply list_elem_of_lookup_2, Hn'.
Qed.

Lemma drawn_in_pool (pool : list char) (names : list string)
    (picks : list char) (c : char) :
  Forall2 (drawn_for (build_pool_map pool)) names picks →
  c ∈ picks → c ∈ pool.
Proof.
  intros Hdrawn [i Hi]%list_elem_of_lookup.
  destruct (Forall2_lookup_r _ _ _ _ _ Hdrawn Hi) as (n & _ & s & Hs & Hc).
  eapply slice_subseteq_pool; eauto.
Qed.

Lemma seed_chars_Ok (a : args) (class_names : list string)
    (pool_map : gmap string (list char)) (t : tape)
    (seeds : list char) (t' : tape) :
  seed_chars a class_names pool_map t = Ok (seeds, t') →
  seeds_of a pool_map class_names seeds.
Proof.
  unfold seed_chars, pick_from_each_class, seeds_of.
  destruct (require_classes a && negb (url_safe a)).
  - by intros (new & -> & Hnew)%pick_loop_Ok.
  - by intros [= -> _]%ret_Ok.
Qed.

(** ** Generator: the fill *)

Lemma elem_of_available (pool chars : list char) (c : char) :
  c ∈ available pool chars ↔ (c ∉ chars) ∧ c ∈ pool.
Proof.
  unfold available. by rewrite list_elem_of_filter, elem_of_list_to_set.
Qed.

Lemma NoDup_available (pool chars : list char) :
  NoDup pool → NoDup (available pool chars).
Proof. apply NoDup_filter. Qed.

(** Removing distinct pool characters leaves the pool size minus their
    number. *)
Lemma length_available (pool chars : list char) :
  NoDup pool → NoDup chars → (∀ c, c ∈ chars → c ∈ pool) →
  (List.length (available pool chars)
   = List.length pool - List.length chars)%nat.
Proof.
  intros Hpool Hchars Hsub. unfold available.
  set (used := list_to_set chars : gset char).
  pose proof (filter_app_complement (λ c, c ∉ used) pool) as Hsplit.
  apply Permutation_length in Hsplit. rewrite length_app in Hsplit.
  assert (Hused : filter (λ c : char, ¬ (c ∉ used)) pool ≡ₚ chars).
  { apply NoDup_Permutation; [by apply NoDup_filter | done |].
    intros c. rewrite list_elem_of_filter. subst used.
    rewrite elem_of_list_to_set. split.
    - intros [Hc _]. by destruct (decide (c ∈ chars)).
    - intros Hc. split; [by intros Hn | by apply Hsub]. }
  apply Permutation_length in Hused. lia.
Qed.

Lemma fill_with_repeats_Ok (n : nat) (pool chars : list char) (t : tape)
    (chars' : list char) (t' : tape) :
  fill_with_repeats n pool chars t = Ok (chars', t') →
  ∃ new, chars' = chars ++ new ∧ List.length new = n ∧
         ∀ c, c ∈ new → c ∈ pool.
Proof.
  revert chars t. induction n as [|n IH]; intros chars t Hrun.
  - apply ret_Ok in Hrun as [= -> _]. exists []. rewrite app_nil_r.
    split_and!; [done..|]. by intros c ?%elem_of_nil.
  - cbn [fill_with_repeats] in Hrun.
    apply bind_Ok in Hrun as (c & t1 & Hc%choice_Ok & Hrun).
    apply IH in Hrun as (new & -> & Hlen & Hin).
    exists (c :: new). rewrite <- app_assoc. split_and!; [done | simpl; lia |].
    intros x [->|Hx]%elem_of_cons; [done | by apply Hin].
Qed.

Lemma fill_with_repeats_total (n : nat) (pool chars : list char) (t : tape) :
  pool ≠ [] → ∃ chars' t', fill_with_repeats n pool chars t = Ok (chars', t').
Proof.
  intros Hpool. revert chars t. induction n as [|n IH]; intros chars t.
  - exists chars, t. done.
  - destruct (choice_total pool t Hpool) as (c & t1 & Hc).
    destruct (IH (chars ++ [c]) t1) as (chars' & t' & Hrec).
    exists chars', t'. cbn [fill_with_repeats]. apply bind_Ok. eauto.
Qed.

Lemma fill_chars_Ok (a : args) (pool chars : list char) (remaining : Z)
    (t : tape) (chars' : list char) (t' : tape) :
  fill_chars a pool chars remaining t = Ok (chars', t') →
  ∃ new, chars' = chars ++ new ∧ List.length new = Z.to_nat remaining ∧
         (∀ c, c ∈ new → c ∈ pool) ∧
         (no_repeat a = true → NoDup pool →
            NoDup new ∧ ∀ c, c ∈ new → c ∉ chars).
Proof.
  unfold fill_chars. destruct (no_repeat a).
  - intros (av & t1 & Hperm%secure_shuffle_Ok & Hrun)%bind_Ok.
    destruct (Z.ltb_spec (Z.of_nat (List.length av)) remaining) as [|Hlen];
      [discriminate|].
    apply ret_Ok in Hrun as [= -> _].
    assert (Hav : ∀ c, c ∈ take (Z.to_nat remaining) av →
                       (c ∉ chars) ∧ c ∈ pool).
    { intros c Hc%subseteq_take. rewrite Hperm in Hc.
      by apply elem_of_available. }
    exists (take (Z.to_nat remaining) av). split_and!.
    + done.
    + rewrite length_take. lia.
    + intros c Hc. by apply Hav.
    + intros _ Hpool. split; [|intros c Hc; by apply Hav].
      apply (sublist_NoDup _ av); [|apply sublist_take].
      rewrite Hperm. by apply NoDup_available.
  - intros (new & -> & Hlen & Hin)%fill_with_repeats_Ok.
    exists new. split_and!; [done..|discriminate].
Qed.

Lemma fill_chars_total (a : args) (pool chars : list char) (remaining : Z)
    (t : tape) :
  pool ≠ [] →
  (no_repeat a = true →
     remaining ≤ Z.of_nat (List.length (available pool chars))) →
  ∃ chars' t', fill_chars a pool chars remaining t = Ok (chars', t').
Proof.
  intros Hpool Henough. unfold fill_chars. destruct (no_repeat a).
  - destruct (secure_shuffle_total (available pool chars) t)
      as (av & t1 & Hav).
    pose proof (secure_shuffle_Ok _ _ _ _ Hav) as Hperm.
    apply Permutation_length in Hperm.
    exists (chars ++ take (Z.to_nat remaining) av), t1.
    apply bind_Ok. exists av, t1. split; [done|].
    destruct (Z.ltb_spec (Z.of_nat (List.length av)) remaining) as [Hlt|_];
      [|done].
    specialize (Henough eq_refl). lia.
  - by apply fill_with_repeats_total.
Qed.

(** ** Generator: one password, then all of them *)

Lemma generate_core_Ok (pool : list char) (class_names : list string)
    (a : args) (t : tape) (core : list char) (t' : tape) :
  generate_core pool class_names a (build_pool_map pool) t = Ok (core, t') →
  ∃ seeds new,
    core ≡ₚ seeds ++ new ∧
    seeds_of a (build_pool_map pool) class_names seeds ∧
    List.length new = Z.to_nat (remaining_of a seeds) ∧
    (∀ c, c ∈ new → c ∈ pool) ∧
    (no_repeat a = true → NoDup pool →
       NoDup new ∧ ∀ c, c ∈ new → c ∉ seeds).
Proof.
  unfold generate_core.
  intros (seeds & t1 & Hseeds%seed_chars_Ok & Hrun)%bind_Ok.
  apply bind_Ok in Hrun as (chars & t2 & Hfill%fill_chars_Ok & Hperm).
  apply secure_shuffle_Ok in Hperm.
  destruct Hfill as (new & -> & Hlen & Hin & Hnd).
  exists seeds, new. split_and!; done.
Qed.

Lemma generate_loop_Ok (n : nat) (pool : list char)
    (class_names : list string) (a : args)
    (pool_map : gmap string (list char)) (passwords : list (list char))
    (t : tape) (passwords' : list (list char)) (t' : tape) :
  generate_loop n pool class_names a pool_map passwords t
    = Ok (passwords', t') →
  ∃ new, passwords' = passwords ++ new ∧ List.length new = n ∧
    Forall (λ pwd, ∃ core t1 t2,
              generate_core pool class_names a pool_map t1 = Ok (core, t2) ∧
              pwd = prefix a ++ core ++ suffix a) new.
Proof.
  revert passwords t. induction n as [|n IH]; intros passwords t Hrun.
  - apply ret_Ok in Hrun as [= -> _]. exists []. rewrite app_nil_r.
    split_and!; [done..|constructor].
  - cbn [generate_loop] in Hrun.
    apply bind_Ok in Hrun as (core & t1 & Hcore & Hrun).
    apply IH in Hrun as (new & -> & Hlen & Hall).
    exists ((prefix a ++ core ++ suffix a) :: new). rewrite <- app_assoc.
    split_and!; [done | simpl; lia |]. constructor; [|done]. eauto.
Qed.

Lemma generate_loop_total (n : nat) (pool : list char)
    (class_names : list string) (a : args)
    (pool_map : gmap string (list char)) (passwords : list (list char))
    (t : tape) :
  (∀ t1, ∃ core t2,
     generate_core pool class_names a pool_map t1 = Ok (core, t2)) →
  ∃ passwords' t',
    generate_loop n pool class_names a pool_map passwords t
      = Ok (passwords', t').
Proof.
  intros Hcore. revert passwords t. induction n as [|n IH]; intros passwords t.
  - exists passwords, t. done.
  - destruct (Hcore t) as (core & t1 & Hc).
    destruct (IH (passwords ++ [prefix a ++ core ++ suffix a]) t1)
      as (passwords' & t' & Hrec).
    exists passwords', t'. cbn [generate_loop]. apply bind_Ok. eauto.
Qed.

Lemma core_of_app (a : args) (core : list char) :
  core_of a (prefix a ++ core ++ suffix a) = core.
Proof.
  unfold core_of. rewrite drop_app_length, !length_app.
  replace (_ - _ - _)%nat with (List.length core) by lia.
  apply take_app_length.
Qed.

(** What a passed validation guarantees. *)
Lemma ensure_requirements_Ok (length : Z) (class_names : list string)
    (require_classes no_repeat : bool) (pool : list char) :
  ensure_requirements length class_names require_classes no_repeat pool
    = Ok tt →
  1 ≤ length ∧
  (no_repeat = true → length ≤ Z.of_nat (List.length pool)) ∧
  (require_classes = true → "url_safe"%string ∉ class_names →
     (∀ n, n ∈ class_names → class_slice pool n ≠ []) ∧
     Z.of_nat (List.length class_names) ≤ length).
Proof.
  intros Hok.
  pose proof (ensure_requirements_cases length class_names require_classes
                no_repeat pool) as Hcases.
  cbv zeta in Hcases. rewrite Hok in Hcases.
  destruct Hcases as
    [(_ & ?) | [(_ & _ & ?) | [(_ & _ & _ & _ & ?)
    | [(_ & _ & _ & _ & _ & ?)
    | [(Hlen & Hsmall & Hchk & He & Hk & _) | (Hlen & Hsmall & Hchk & _)]]]]];
    try discriminate.
  - split_and!; [done | intros ->; lia |]. intros _ _. split; [|done].
    by apply (filter_nil_iff (λ n, class_slice pool n = [])).
  - split_and!; [done | intros ->; lia |]. intros ? ?. by destruct Hchk.
Qed.

Lemma remaining_of_fits (a : args) (seeds : list char) :
  Z.of_nat (List.length seeds) ≤ length_arg a →
  Z.of_nat (List.length seeds + Z.to_nat (remaining_of a seeds))
  = length_arg a.
Proof.
  intros Hle. unfold remaining_of.
  destruct (Z.ltb_spec (length_arg a - Z.of_nat (List.length seeds)) 0); lia.
Qed.

(** What every core returned by [generate_passwords] satisfies, given a
    property [P] of the cores of successful runs of [generate_core]. *)
Lemma generate_passwords_Forall (P : list char → Prop) (pool : list char)
    (class_names : list string) (a : args) (t : tape)
    (pwds : list (list char)) (t' : tape) :
  (∀ t1 core t2,
     generate_core pool class_names a (build_pool_map pool) t1
       = Ok (core, t2) → P core) →
  generate_passwords pool class_names a t = Ok (pwds, t') →
  List.length pwds = Z.to_nat (count a) ∧
  Forall (λ pwd, pwd = prefix a ++ core_of a pwd ++ suffix a ∧
                 P (core_of a pwd)) pwds.
Proof.
  intros HP (new & -> & Hlen & Hall)%generate_loop_Ok. split; [done|].
  simpl. eapply Forall_impl; [exact Hall|].
  intros pwd (core & t1 & t2 & Hcore & ->). rewrite core_of_app.
  split; [done | by eapply HP].
Qed.

Lemma class_slice_lookup (pool : list char) (name : string) (c : char) :
  c ∈ class_slice pool name →
  ∃ s, build_pool_map pool !! name = Some s ∧ c ∈ s.
Proof.
  unfold class_slice. destruct (build_pool_map pool !! name) as [s|]; simpl.
  - eauto.
  - by intros ?%elem_of_nil.
Qed.

(** ** Generator: a run on a validated configuration *)

Section validated_run.
Context (a : args) (pool : list char) (class_names : list string).

Hypothesis validated :
  ensure_requirements (length_arg a) class_names (require_classes a)
    (no_repeat a) pool = Ok tt.
Hypothesis sentinel_alone :
  "url_safe"%string ∈ class_names → class_names = ["url_safe"%string].
Hypothesis distinct_classes : NoDup class_names.
Hypothesis distinct_pool : NoDup pool.
Hypothesis pool_not_empty : pool ≠ [].

Local Abbreviation pool_map := (build_pool_map pool).

(** The seeded characters fit in the requested length. *)
Lemma seeds_within_length (seeds : list char) :
  seeds_of a pool_map class_names seeds →
  Z.of_nat (List.length seeds) ≤ length_arg a.
Proof using validated sentinel_alone.
  destruct (ensure_requirements_Ok _ _ _ _ _ validated) as (Hlen & _ & Hcls).
  unfold seeds_of. intros Hseeds.
  destruct (require_classes a); simpl in Hseeds; [|subst; simpl; lia].
  destruct (negb (url_safe a)); [|subst; simpl; lia].
  apply Forall2_length in Hseeds. rewrite <- Hseeds.
  destruct (decide ("url_safe"%string ∈ class_names)) as [Hin|Hin].
  - rewrite (sentinel_alone Hin). simpl. lia.
  - destruct (Hcls eq_refl Hin) as [_ Hk].
    pose proof (length_filter (λ n, n ≠ "url_safe"%string) class_names).
    unfold seeded_classes. lia.
Qed.

(** One character per class, from distinct classes. *)
Lemma seeds_NoDup (seeds : list char) :
  seeds_of a pool_map class_names seeds →
  NoDup seeds ∧ ∀ c, c ∈ seeds → c ∈ pool.
Proof using distinct_classes.
  unfold seeds_of. intros Hseeds.
  destruct (require_classes a && negb (url_safe a)).
  - split.
    + eapply drawn_NoDup; [|exact Hseeds]. by apply NoDup_filter.
    + intros c. by eapply drawn_in_pool.
  - subst seeds. split; [constructor | by intros c ?%elem_of_nil].
Qed.

(** No draw from an empty slice. *)
Lemma seed_chars_total (t : tape) :
  ∃ seeds t', seed_chars a class_names pool_map t = Ok (seeds, t').
Proof using validated sentinel_alone.
  destruct (ensure_requirements_Ok _ _ _ _ _ validated) as (_ & _ & Hcls).
  unfold seed_chars.
  destruct (require_classes a); simpl; [|by eauto].
  destruct (negb (url_safe a)); [|by eauto].
  apply pick_loop_total. intros n Hn Hne.
  destruct (decide ("url_safe"%string ∈ class_names)) as [Hin|Hin].
  - rewrite (sentinel_alone Hin) in Hn.
    by apply list_elem_of_singleton in Hn.
  - destruct (Hcls eq_refl Hin) as [Hall _]. specialize (Hall n Hn).
    unfold class_slice in Hall.
    destruct (pool_map !! n) as [s|]; [|done]. by exists s.
Qed.

(** After the seeding, the unused pool characters are as many as the pool
    size minus the seed count, and with [no_repeat] enough for the
    fill. *)
Lemma available_enough (seeds : list char) :
  seeds_of a pool_map class_names seeds →
  NoDup seeds ∧
  List.length (available pool seeds)
    = (List.length pool - List.length seeds)%nat ∧
  (no_repeat a = true →
     remaining_of a seeds ≤ Z.of_nat (List.length (available pool seeds))).
Proof using validated sentinel_alone distinct_classes distinct_pool.
  intros Hseeds. destruct (seeds_NoDup seeds Hseeds) as [Hsnd Hsin].
  pose proof (length_available pool seeds distinct_pool Hsnd Hsin) as Hav.
  pose proof (seeds_within_length seeds Hseeds) as Hfit.
  split_and!; [done..|]. intros Hnr.
  destruct (ensure_requirements_Ok _ _ _ _ _ validated) as (_ & Hsize & _).
  specialize (Hsize Hnr). rewrite Hav. unfold remaining_of.
  destruct (Z.ltb_spec (length_arg a - Z.of_nat (List.length seeds)) 0); lia.
Qed.

(** No exit and no exception while a core is built. *)
Lemma generate_core_total (t : tape) :
  ∃ core t', generate_core pool class_names a pool_map t = Ok (core, t').
Proof using All.
  destruct (seed_chars_total t) as (seeds & t1 & Hseeds).
  pose proof (seed_chars_Ok _ _ _ _ _ _ Hseeds) as Hdrawn.
  destruct (available_enough seeds Hdrawn) as (_ & _ & Henough).
  destruct (fill_chars_total a pool seeds (remaining_of a seeds) t1
              pool_not_empty Henough) as (chars & t2 & Hfill).
  destruct (secure_shuffle_total chars t2) as (core & t3 & Hcore).
  exists core, t3. unfold generate_core.
  apply bind_Ok. exists seeds, t1. split; [done|].
  apply bind_Ok. exists chars, t2. split; done.
Qed.

(** The length and the alphabet of a core. *)
Lemma generate_core_shape (t : tape) (core : list char) (t' : tape) :
  generate_core pool class_names a pool_map t = Ok (core, t') →
  Z.of_nat (List.length core) = length_arg a ∧ ∀ c, c ∈ core → c ∈ pool.
Proof using validated sentinel_alone.
  intros (seeds & new & Hperm & Hseeds & Hlen & Hin & _)%generate_core_Ok.
  pose proof (seeds_within_length seeds Hseeds) as Hfit. split.
  - rewrite (Permutation_length Hperm), length_app, Hlen.
    by apply remaining_of_fits.
  - intros c. rewrite Hperm, elem_of_app. intros [Hc|Hc]; [|by apply Hin].
    unfold seeds_of in Hseeds.
    destruct (require_classes a && negb (url_safe a)).
    + by eapply drawn_in_pool.
    + subst seeds. by apply elem_of_nil in Hc.
Qed.

(** With [no_repeat], a core has no repeated character. *)
Lemma generate_core_NoDup (t : tape) (core : list char) (t' : tape) :
  no_repeat a = true →
  generate_core pool class_names a pool_map t = Ok (core, t') →
  NoDup core.
Proof using distinct_classes distinct_pool.
  intros Hnr (seeds & new & Hperm & Hseeds & _ & _ & Hnew)%generate_core_Ok.
  destruct (seeds_NoDup seeds Hseeds) as [Hsnd _].
  destruct (Hnew Hnr distinct_pool) as [Hnnd Hfresh].
  rewrite Hperm. apply NoDup_app. split_and!; [done | | done].
  intros c Hc Hc'. by apply (Hfresh c).
Qed.
End validated_run.

(** C8: a successful [generate_passwords] on a validated configuration
    returns [count] passwords, each of them the prefix, a core and the
    suffix, where the core has [length] characters, all from the pool. The
    count is an unsigned quantity and the sentinel [url_safe], when it is
    an active class, is the only one, as in the data model. *)
Theorem generate_passwords_shape (pool : list char)
    (class_names : list string) (a : args) (t : tape)
    (pwds : list (list char)) (t' : tape) :
  ensure_requirements (length_arg a) class_names (require_classes a)
    (no_repeat a) pool = Ok tt →
  ("url_safe"%string ∈ class_names → class_names = ["url_safe"%string]) →
  0 ≤ count a →
  generate_passwords pool class_names a t = Ok (pwds, t') →
  Z.of_nat (List.length pwds) = count a ∧
  Forall (λ pwd,
            pwd = prefix a ++ core_of a pwd ++ suffix a ∧
            Z.of_nat (List.length (core_of a pwd)) = length_arg a ∧
            ∀ c, c ∈ core_of a pwd → c ∈ pool) pwds.
Proof.
  intros Hvalid Hwf Hcount Hrun.
  apply (generate_passwords_Forall
           (λ core, Z.of_nat (List.length core) = length_arg a ∧
                    ∀ c, c ∈ core → c ∈ pool)) in Hrun as [Hlen Hall].
  - split; [lia|]. eapply Forall_impl; [exact Hall|]. by intros pwd [? [? ?]].
  - intros t1 core t2. by apply generate_core_shape.
Qed.

Lemma generate_passwords_shape_witness :
  Z.of_nat (List.length sample_passwords) = count sample_args ∧
  Forall (λ pwd,
            pwd = prefix sample_args ++ core_of sample_args pwd
                  ++ suffix sample_args ∧
            Z.of_nat (List.length (core_of sample_args pwd))
              = length_arg sample_args ∧
            ∀ c, c ∈ core_of sample_args pwd → c ∈ sample_pool)
         sample_passwords.
Proof.
  apply (generate_passwords_shape sample_pool sample_classes sample_args
           sample_tape sample_passwords []).
  - vm_compute. reflexivity.
  - intros Hin. exfalso. revert Hin. decide_by_vm.
  - vm_compute. discriminate.
  - vm_compute. reflexivity.
Defined.

(** C1: with [no_repeat] set, every password returned on a validated
    configuration has a core of exactly [length] characters, pairwise
    distinct and all from the pool. The pool has no duplicate and the
    active classes are distinct names, the sentinel standing alone, as in
    the data model. *)
Theorem generate_passwords_no_repeat (pool : list char)
    (class_names : list string) (a : args) (t : tape)
    (pwds : list (list char)) (t' : tape) :
  NoDup pool → is_active_classes class_names →
  ensure_requirements (length_arg a) class_names (require_classes a)
    (no_repeat a) pool = Ok tt →
  no_repeat a = true →
  generate_passwords pool class_names a t = Ok (pwds, t') →
  Forall (λ pwd,
            pwd = prefix a ++ core_of a pwd ++ suffix a ∧
            Z.of_nat (List.length (core_of a pwd)) = length_arg a ∧
            NoDup (core_of a pwd) ∧
            ∀ c, c ∈ core_of a pwd → c ∈ pool) pwds.
Proof.
  intros Hpool [Hnd Hwf] Hvalid Hnr Hrun.
  apply (generate_passwords_Forall
           (λ core, Z.of_nat (List.length core) = length_arg a ∧
                    NoDup core ∧ ∀ c, c ∈ core → c ∈ pool)) in Hrun as [_ Hall].
  - eapply Forall_impl; [exact Hall|]. by intros pwd [? (? & ? & ?)].
  - intros t1 core t2 Hcore.
    destruct (generate_core_shape a pool class_names Hvalid Hwf t1 core t2 Hcore)
      as [Hlen Hin].
    split_and!; [done | | done].
    by apply (generate_core_NoDup a pool class_names Hnd Hpool t1 core t2).
Qed.

Lemma generate_passwords_no_repeat_witness :
  Forall (λ pwd,
            pwd = prefix sample_args ++ core_of sample_args pwd
                  ++ suffix sample_args ∧
            Z.of_nat (List.length (core_of sample_args pwd))
              = length_arg sample_args ∧
            NoDup (core_of sample_args pwd) ∧
            ∀ c, c ∈ core_of sample_args pwd → c ∈ sample_pool)
         sample_passwords.
Proof.
  apply (generate_passwords_no_repeat sample_pool sample_classes sample_args
           sample_tape sample_passwords []).
  - decide_by_vm.
  - split; [decide_by_vm|]. intros Hin. exfalso. revert Hin. decide_by_vm.
  - vm_compute. reflexivity.
  - reflexivity.
  - vm_compute. reflexivity.
Defined.

(** C2: with [require_classes] set and [url_safe] off (the flag is off and
    the sentinel is not an active class), every core returned on a
    validated configuration holds a character of the pool slice of each
    active class; the seeding draws exactly one character per active
    class, each from the slice of its class. *)
Theorem generate_passwords_require_classes (pool : list char)
    (class_names : list string) (a : args) :
  ensure_requirements (length_arg a) class_names (require_classes a)
    (no_repeat a) pool = Ok tt →
  require_classes a = true → url_safe a = false →
  "url_safe"%string ∉ class_names →
  (∀ t seeds t',
     seed_chars a class_names (build_pool_map pool) t = Ok (seeds, t') →
     Forall2 (λ n c, c ∈ class_slice pool n) class_names seeds) ∧
  (∀ t pwds t',
     generate_passwords pool class_names a t = Ok (pwds, t') →
     Forall (λ pwd,
               pwd = prefix a ++ core_of a pwd ++ suffix a ∧
               ∀ n, n ∈ class_names →
                    ∃ c, c ∈ core_of a pwd ∧ c ∈ class_slice pool n) pwds).
Proof.
  intros _ Hrc Hurl Hsent.
  assert (Hseeded : seeded_classes class_names = class_names).
  { unfold seeded_classes. induction class_names as [|n cn IH]; [done|].
    apply not_elem_of_cons in Hsent as [Hn Hcn].
    rewrite filter_cons_True by done. by rewrite IH. }
  assert (Hslice : ∀ seeds,
    seeds_of a (build_pool_map pool) class_names seeds →
    Forall2 (λ n c, c ∈ class_slice pool n) class_names seeds).
  { intros seeds. unfold seeds_of. rewrite Hrc, Hurl, Hseeded. simpl.
    intros Hdrawn. eapply Forall2_impl; [exact Hdrawn|].
    intros n c (s & Hs & Hc). unfold class_slice. by rewrite Hs. }
  split.
  - intros t seeds t' Hseeds%seed_chars_Ok. by apply Hslice.
  - intros t pwds t' Hrun.
    apply (generate_passwords_Forall
             (λ core, ∀ n, n ∈ class_names →
                           ∃ c, c ∈ core ∧ c ∈ class_slice pool n))
      in Hrun as [_ Hall]; [done|].
    intros t1 core t2 (seeds & new & Hperm & Hseeds%Hslice & _)%generate_core_Ok.
    intros n [i Hi]%list_elem_of_lookup.
    destruct (Forall2_lookup_l _ _ _ _ _ Hseeds Hi) as (c & Hc & Hcn).
    exists c. split; [|done]. rewrite Hperm, elem_of_app. left.
    eapply list_elem_of_lookup_2, Hc.
Qed.

Lemma generate_passwords_require_classes_witness :
  Forall (λ pwd,
            pwd = prefix sample_args ++ core_of sample_args pwd
                  ++ suffix sample_args ∧
            ∀ n, n ∈ sample_classes →
                 ∃ c, c ∈ core_of sample_args pwd ∧
                      c ∈ class_slice sample_pool n) sample_passwords.
Proof.
  destruct (generate_passwords_require_classes sample_pool sample_classes
              sample_args) as [_ Hgen].
  - vm_compute. reflexivity.
  - reflexivity.
  - reflexivity.
  - decide_by_vm.
  - apply (Hgen sample_tape sample_passwords []). vm_compute. reflexivity.
Defined.

(** C10: on a pool and an active-class list of the data model, a
    configuration the validator accepts makes [generate_passwords] return
    passwords on every outcome of the random source: it reaches neither
    the [InsufficientUniqueChars] exit nor a draw from an empty slice. The
    slices of distinct classes are disjoint, the seeded characters are
    pairwise distinct, the pool characters they leave are as many as the
    pool size minus the seed count, and with [no_repeat] that is at least
    what remains to fill. *)
Theorem generate_passwords_total (pool : list char)
    (class_names : list string) (a : args) :
  is_pool pool → is_active_classes class_names →
  ensure_requirements (length_arg a) class_names (require_classes a)
    (no_repeat a) pool = Ok tt →
  (∀ n1 n2 c, n1 ≠ n2 →
     c ∈ class_slice pool n1 → c ∈ class_slice pool n2 → False) ∧
  (∀ t, ∃ seeds t',
     seed_chars a class_names (build_pool_map pool) t = Ok (seeds, t')) ∧
  (∀ t seeds t',
     seed_chars a class_names (build_pool_map pool) t = Ok (seeds, t') →
     NoDup seeds ∧
     List.length (available pool seeds)
       = (List.length pool - List.length seeds)%nat ∧
     (no_repeat a = true →
        remaining_of a seeds
          ≤ Z.of_nat (List.length (available pool seeds)))) ∧
  (∀ t, ∃ pwds t', generate_passwords pool class_names a t = Ok (pwds, t')).
Proof.
  intros [Hpool Hne] [Hnd Hwf] Hvalid. split_and!.
  - intros n1 n2 c Hneq (s1 & Hs1 & Hc1)%class_slice_lookup
      (s2 & Hs2 & Hc2)%class_slice_lookup.
    by apply (slices_disjoint pool n1 n2 s1 s2 c).
  - intros t. by apply seed_chars_total.
  - intros t seeds t' Hseeds%seed_chars_Ok.
    by apply (available_enough a pool class_names).
  - intros t. apply generate_loop_total. intros t1.
    by apply generate_core_total.
Qed.

Lemma generate_passwords_total_witness :
  generate_passwords sample_pool sample_classes sample_args sample_tape
    = Ok (sample_passwords, []) ∧
  ∃ pwds t',
    generate_passwords sample_pool sample_classes sample_args [] = Ok (pwds, t').
Proof.
  split; [vm_compute; reflexivity|].
  apply (generate_passwords_total sample_pool sample_classes sample_args).
  - split; [decide_by_vm | discriminate].
  - split; [decide_by_vm|]. intros Hin. exfalso. revert Hin. decide_by_vm.
  - vm_compute. reflexivity.
Defined.

(** ** EntropyEstimator *)

(** C9: [bits_of_entropy] is the product of the length and the base-2
    logarithm of the pool size when the pool size exceeds 1 and the length
    is positive, and the zero constant otherwise, whatever the
    floating-point operations are. *)
Theorem bits_of_entropy_spec `{FloatOps float} (pool_size length : Z) :
  (pool_size > 1 → length > 0 →
     bits_of_entropy pool_size length
       = float_mul (float_of_int length) (math_log2 pool_size)) ∧
  (pool_size ≤ 1 ∨ length ≤ 0 →
     bits_of_entropy pool_size length = float_zero).
Proof.
  unfold bits_of_entropy.
  destruct (Z.leb_spec pool_size 1), (Z.leb_spec length 0); simpl;
    split; intros; try done; lia.
Qed.

Lemma bits_of_entropy_spec_witness :
  @bits_of_entropy Z Z_FloatOps 64 10 = 60 ∧
  @bits_of_entropy Z Z_FloatOps 1 10 = 0.
Proof.
  destruct (@bits_of_entropy_spec Z Z_FloatOps 64 10) as [Hpos _].
  destruct (@bits_of_entropy_spec Z Z_FloatOps 1 10) as [_ Hzero].
  split; [apply Hpos; lia | apply Hzero; lia].
Defined.

(** ** The data model is what [build_pool] returns *)

Lemma class_names_of_cases (a : args) :
  NoDup (class_names_of a) ∧ "url_safe"%string ∉ class_names_of a.
Proof.
  unfold class_names_of, selected_classes, includes_specified.
  destruct (lower a), (upper a), (digits a), (symbols a);
    split; decide_by_vm.
Qed.

Lemma build_pool_data_model (a : args) (pool : list char)
    (class_names : list string) :
  build_pool a = Ok (pool, class_names) →
  is_pool pool ∧ is_active_classes class_names.
Proof.
  intros (-> & Hne & ->)%build_pool_Ok. split; split.
  - apply NoDup_sorted.
  - by rewrite sorted_nil.
  - destruct (url_safe a); [decide_by_vm | apply class_names_of_cases].
  - destruct (url_safe a); [done|]. intros Hin.
    by apply class_names_of_cases in Hin.
Qed.

(** The flow of [main] (cli.py lines 56-59): a pool that [build_pool]
    returned and [ensure_requirements] accepted always yields passwords. *)
Lemma main_generates (a : args) (pool : list char)
    (class_names : list string) (t : tape) :
  build_pool a = Ok (pool, class_names) →
  ensure_requirements (length_arg a) class_names (require_classes a)
    (no_repeat a) pool = Ok tt →
  ∃ pwds t', generate_passwords pool class_names a t = Ok (pwds, t').
Proof.
  intros [[Hpool Hne] [Hnd Hwf]]%build_pool_data_model Hvalid.
  apply generate_loop_total. intros t1. by apply generate_core_total.
Qed.

(** * Further properties of the code *)

(** ** The result monad: failures *)

Lemma bind_Err {A B : Type} (c : M A) (f : A → M B) (t : tape) (e : error) :
  (c ≫= f) t = Err e ↔
  c t = Err e ∨ ∃ x t', c t = Ok (x, t') ∧ f x t' = Err e.
Proof.
  unfold mbind, M_bind. destruct (c t) as [[x t']|e']; simpl.
  - split; [intros Hf; right; eauto|].
    intros [Hc|(x' & t'' & Heq & Hf)]; [discriminate | congruence].
  - split; [intros [= ->]; by left|].
    intros [Hc|(x' & t'' & Heq & _)]; [congruence | discriminate].
Qed.

(** ** [secure_shuffle]: draws, bounds, reachable orders *)

Lemma randbelow_small (n j : nat) (t : tape) :
  (j < n)%nat → randbelow n (j :: t) = Ok (j, t).
Proof.
  intros Hj. destruct n as [|n]; [lia|]. unfold randbelow. cbn [hd tl].
  by rewrite (Nat.mod_small j (S n)).
Qed.

Lemma randbelow_tape (n : nat) (t : tape) (j : nat) (t' : tape) :
  randbelow n t = Ok (j, t') → t' = drop 1 t.
Proof.
  destruct n as [|n]; [discriminate|]. intros [= _ <-]. by destruct t.
Qed.

Lemma shuffle_from_tape {A : Type} (i : nat) (lst : list A) (t : tape)
    (lst' : list A) (t' : tape) :
  shuffle_from i lst t = Ok (lst', t') → t' = drop i t.
Proof.
  revert lst t. induction i as [|i IH]; intros lst t Hrun.
  - by apply ret_Ok in Hrun as [= _ ->].
  - cbn [shuffle_from] in Hrun.
    apply bind_Ok in Hrun as (j & t1 & ->%randbelow_tape & Hrun).
    apply bind_Ok in Hrun as (l1 & t2 & [_ ->]%swap_Ok & Hrun).
    apply IH in Hrun as ->. by rewrite drop_drop.
Qed.

(** X1: [secure_shuffle] never fails, whatever the list and the draws: no
    index it uses is out of range. It returns a permutation of its
    argument and consults the random source once per position but the
    first, so a list of at most one element is returned without a draw. *)
Theorem secure_shuffle_permutes {A : Type} (lst : list A) (t : tape) :
  ∃ lst', secure_shuffle lst t = Ok (lst', drop (List.length lst - 1) t) ∧
          lst' ≡ₚ lst.
Proof.
  destruct (secure_shuffle_total lst t) as (lst' & t' & Hrun).
  exists lst'. pose proof (shuffle_from_tape _ _ _ _ _ Hrun) as ->.
  split; [done | by eapply secure_shuffle_Ok].
Qed.

(** The loop of [secure_shuffle] from position [i] can leave any
    arrangement of the first [i + 1] elements, the others staying put. *)
Lemma shuffle_from_reaches {A : Type} (i : nat) (lst target : list A) :
  (i < List.length lst)%nat →
  target ≡ₚ take (S i) lst →
  ∃ draws, List.length draws = i ∧
    ∀ rest, shuffle_from i lst (draws ++ rest)
            = Ok (target ++ drop (S i) lst, rest).
Proof.
  revert lst target. induction i as [|i IH]; intros lst target Hi Hperm.
  - destruct lst as [|x lst]; [simpl in Hi; lia|]. cbn [take] in Hperm.
    apply Permutation_singleton_r in Hperm as ->.
    exists []. split; [done|]. intros rest. reflexivity.
  - destruct target as [|y q _] using rev_ind.
    { apply Permutation_nil_l in Hperm.
      destruct lst; [simpl in Hi; lia | discriminate]. }
    assert (Hy : y ∈ take (S (S i)) lst).
    { rewrite <- Hperm, elem_of_app. right. by left. }
    apply list_elem_of_lookup in Hy as [j Hj].
    apply lookup_take_Some in Hj as [Hj Hjlt].
    destruct (lookup_lt_is_Some_2 lst (S i) Hi) as [a Ha].
    set (lst1 := <[j:=a]> (<[S i:=y]> lst)).
    assert (Hlen1 : List.length lst1 = List.length lst).
    { unfold lst1. by rewrite !length_insert. }
    assert (Hlast : lst1 !! S i = Some y).
    { unfold lst1. destruct (decide (j = S i)) as [->|Hne].
      - rewrite list_lookup_insert_eq by (rewrite length_insert; lia).
        congruence.
      - rewrite list_lookup_insert_ne by done.
        by rewrite list_lookup_insert_eq. }
    assert (Hdrop : drop (S (S i)) lst1 = drop (S (S i)) lst).
    { unfold lst1. rewrite !drop_insert_lt by lia. done. }
    assert (Htake : take (S (S i)) lst1 ≡ₚ take (S (S i)) lst).
    { unfold lst1. rewrite !take_insert_lt by lia.
      apply Permutation_insert_swap; by rewrite lookup_take_lt by lia. }
    rewrite (take_S_r lst1 (S i) y Hlast), <- Hperm in Htake.
    apply Permutation_app_inv_r in Htake.
    destruct (IH lst1 q) as (draws & Hdraws & Hrec); [lia | done |].
    exists (j :: draws). split; [simpl; lia|]. intros rest.
    cbn [shuffle_from]. apply bind_Ok. exists j, (draws ++ rest). split.
    { apply (randbelow_small (S i + 1) j). lia. }
    apply bind_Ok. exists lst1, (draws ++ rest). split.
    { unfold swap. by rewrite Hj, Ha. }
    rewrite Hrec, (drop_S lst1 y (S i) Hlast), Hdrop.
    by rewrite <- app_assoc.
Qed.

Lemma secure_shuffle_reaches_any {A : Type} (lst target : list A) :
  target ≡ₚ lst →
  ∃ draws, List.length draws = (List.length lst - 1)%nat ∧
    ∀ rest, secure_shuffle lst (draws ++ rest) = Ok (target, rest).
Proof.
  intros Hperm. destruct lst as [|x lst].
  - apply Permutation_nil_r in Hperm as ->. exists []. by split.
  - destruct (shuffle_from_reaches (List.length lst) (x :: lst) target)
      as (draws & Hlen & Hrun).
    + simpl. lia.
    + by rewrite take_ge by (simpl; lia).
    + exists draws. split; [simpl; lia|]. intros rest.
      unfold secure_shuffle.
      replace (List.length (x :: lst) - 1)%nat with (List.length lst)
        by (simpl; lia).
      rewrite Hrun, drop_ge by (simpl; lia). by rewrite app_nil_r.
Qed.

(** X2: [secure_shuffle] can return every arrangement of its argument:
    for each permutation of the list there are draws, one per position but
    the first, on which the shuffle returns exactly that permutation. *)
Theorem secure_shuffle_reaches {A : Type} (lst target : list A) :
  target ≡ₚ lst →
  ∃ draws, List.length draws = (List.length lst - 1)%nat ∧
    ∀ rest, secure_shuffle lst (draws ++ rest) = Ok (target, rest).
Proof. apply secure_shuffle_reaches_any. Qed.

Lemma secure_shuffle_reaches_witness :
  ∃ draws, List.length draws = (List.length [1; 2; 3]%nat - 1)%nat ∧
    ∀ rest, secure_shuffle [1; 2; 3]%nat (draws ++ rest)
            = Ok ([3; 1; 2]%nat, rest).
Proof.
  apply (secure_shuffle_reaches [1; 2; 3]%nat [3; 1; 2]%nat).
  apply (Permutation_cons_append [1; 2]%nat 3%nat).
Defined.

(** ** [build_pool]: what is in the pool, and the only failure *)

Lemma pool_parts_of_flags (a : args) :
  pool_parts_of a =
    (if class_on a (lower a) then [string_ascii_lowercase] else []) ++
    (if class_on a (upper a) then [string_ascii_uppercase] else []) ++
    (if class_on a (digits a) then [string_digits] else []) ++
    (if class_on a (symbols a)
     then [match symbols_set a with
           | None => string_punctuation
           | Some s => s
           end]
     else []).
Proof.
  unfold pool_parts_of, selected_classes, classes, class_on,
    includes_specified.
  destruct (lower a), (upper a), (digits a), (symbols a); reflexivity.
Qed.

Lemma class_names_of_flags (a : args) :
  class_names_of a =
    (if class_on a (lower a) then ["lower"%string] else []) ++
    (if class_on a (upper a) then ["upper"%string] else []) ++
    (if class_on a (digits a) then ["digits"%string] else []) ++
    (if class_on a (symbols a) then ["symbols"%string] else []).
Proof.
  unfold class_names_of, selected_classes, class_on, includes_specified.
  destruct (lower a), (upper a), (digits a), (symbols a); reflexivity.
Qed.

Lemma elem_of_pool_set (a : args) (c : char) :
  c ∈ pool_set a ↔ candidate a c ∧ ¬ filtered_out a c.
Proof.
  unfold pool_set, candidate, filtered_out.
  assert (Hparts : c ∈ concat (pool_parts_of a) ↔
    (class_on a (lower a) = true ∧ c ∈ string_ascii_lowercase) ∨
    (class_on a (upper a) = true ∧ c ∈ string_ascii_uppercase) ∨
    (class_on a (digits a) = true ∧ c ∈ string_digits) ∨
    (class_on a (symbols a) = true ∧
     c ∈ match symbols_set a with
         | None => string_punctuation
         | Some s => s
         end)).
  { rewrite pool_parts_of_flags.
    destruct (class_on a (lower a)), (class_on a (upper a)),
      (class_on a (digits a)), (class_on a (symbols a));
      cbn [concat app]; rewrite ?app_nil_r, ?elem_of_app, ?elem_of_nil;
      intuition congruence. }
  destruct (url_safe a), (no_ambiguous a); cbn [andb negb concat];
    rewrite ?app_nil_r, ?elem_of_difference, ?elem_of_list_to_set, ?Hparts;
    intuition congruence.
Qed.

Global Instance filtered_out_dec (a : args) (c : char) :
  Decision (filtered_out a c).
Proof. unfold filtered_out. apply _. Defined.

Lemma elem_of_build_pool (a : args) (pool : list char)
    (class_names : list string) (c : char) :
  build_pool a = Ok (pool, class_names) →
  c ∈ pool ↔ candidate a c ∧ ¬ filtered_out a c.
Proof.
  intros (-> & _ & _)%build_pool_Ok.
  by rewrite elem_of_sorted, elem_of_pool_set.
Qed.

(** X3: the pool [build_pool] returns holds exactly the characters of the
    selected classes (or of the URL-safe set) that no filter removes: not
    ambiguous when [no_ambiguous] is set without [url_safe], not excluded,
    not whitespace. *)
Theorem build_pool_contents (a : args) (pool : list char)
    (class_names : list string) :
  build_pool a = Ok (pool, class_names) →
  ∀ c, c ∈ pool ↔ candidate a c ∧ ¬ filtered_out a c.
Proof.
  intros Hpool c. by eapply elem_of_build_pool.
Qed.

Lemma build_pool_contents_witness :
  100%N ∈ chars_of "23456789defghijkmnpqrstuvwxyz" ↔
  candidate filtered_args 100%N ∧ ¬ filtered_out filtered_args 100%N.
Proof.
  apply (build_pool_contents filtered_args _ ["lower"; "digits"]%string).
  vm_compute. reflexivity.
Defined.

(** X4: [build_pool] has one failure only, the empty pool; the exit for an
    empty selection is never taken. It fails exactly when the filters
    remove every candidate character. *)
Theorem build_pool_failure (a : args) :
  (∀ e, build_pool a = Err e → e = EmptyPool) ∧
  (build_pool a = Err EmptyPool ↔ ∀ c, candidate a c → filtered_out a c).
Proof.
  rewrite build_pool_unfold. split.
  - intros e. case_decide; [by intros [= <-] | discriminate].
  - case_decide as Hempty; split; try done.
    + intros _ c Hc. destruct (decide (filtered_out a c)) as [|Hf]; [done|].
      assert (Hin : c ∈ pool_set a) by by apply elem_of_pool_set.
      rewrite Hempty in Hin. by apply not_elem_of_empty in Hin.
    + intros Hall. exfalso. apply Hempty. apply set_eq. intros c.
      rewrite elem_of_pool_set. split; [|by intros ?%not_elem_of_empty].
      intros [Hc Hf]. exfalso. by apply Hf, Hall.
Qed.

Lemma build_pool_failure_witness : filtered_out all_excluded_args 33%N.
Proof.
  apply (build_pool_failure all_excluded_args).
  - vm_compute. reflexivity.
  - do 3 right. split; [reflexivity | by left].
Defined.

(** X5: with [url_safe] off, the active classes are, in the order lower,
    upper, digits, symbols, the classes whose flag is set, or all four
    when no flag is set. *)
Theorem build_pool_active_classes (a : args) (pool : list char)
    (class_names : list string) :
  build_pool a = Ok (pool, class_names) → url_safe a = false →
  class_names `sublist_of` ["lower"; "upper"; "digits"; "symbols"]%string ∧
  (∀ flag name,
     (flag, name) ∈ [(lower a, "lower"%string); (upper a, "upper"%string);
                     (digits a, "digits"%string);
                     (symbols a, "symbols"%string)] →
     name ∈ class_names ↔ flag = true ∨ includes_specified a = false).
Proof.
  intros (_ & _ & ->)%build_pool_Ok ->. rewrite class_names_of_flags.
  unfold class_on. split.
  - destruct (lower a || _), (upper a || _), (digits a || _),
      (symbols a || _); cbn [app]; repeat constructor.
  - intros flag name Hin. rewrite !elem_of_cons, elem_of_nil in Hin.
    destruct (includes_specified a);
      destruct Hin as [[= -> ->]|[[= -> ->]|[[= -> ->]|[[= -> ->]|[]]]]];
      destruct (lower a), (upper a), (digits a), (symbols a);
      cbn [orb negb app]; rewrite ?elem_of_cons, ?elem_of_nil;
      intuition congruence.
Qed.

Lemma build_pool_active_classes_witness :
  ["lower"; "digits"]%string
    `sublist_of` ["lower"; "upper"; "digits"; "symbols"]%string ∧
  (∀ flag name,
     (flag, name) ∈ [(lower filtered_args, "lower"%string);
                     (upper filtered_args, "upper"%string);
                     (digits filtered_args, "digits"%string);
                     (symbols filtered_args, "symbols"%string)] →
     name ∈ ["lower"; "digits"]%string ↔
     flag = true ∨ includes_specified filtered_args = false).
Proof.
  apply (build_pool_active_classes filtered_args
           (chars_of "23456789defghijkmnpqrstuvwxyz")).
  - vm_compute. reflexivity.
  - reflexivity.
Defined.

(** ** [build_pool_map] on a pool of [build_pool] *)

Lemma elem_of_class_slice (pool : list char) (name : string) (c : char) :
  c ∈ class_slice pool name ↔
  c ∈ pool ∧ ∃ base, class_base name = Some base ∧ c ∈ base.
Proof.
  unfold class_slice.
  destruct (build_pool_map pool !! name) as [s|] eqn:Hs; simpl.
  - by apply elem_of_slice.
  - rewrite build_pool_map_lookup in Hs.
    destruct (class_base name); [discriminate|]. rewrite elem_of_nil.
    split; [done | by intros (_ & base & [=] & _)].
Qed.

Lemma candidate_in_base (a : args) (c : char) :
  symbols_set a = None → candidate a c →
  ∃ name base, class_base name = Some base ∧ c ∈ base.
Proof.
  unfold candidate. intros ->. destruct (url_safe a).
  - intros Hc.
    assert (Hall : Forall (λ x, x ∈ string_ascii_lowercase
                                   ++ string_ascii_uppercase
                                   ++ string_digits ++ string_punctuation)
                          URL_SAFE_UNRESERVED) by decide_by_vm.
    rewrite Forall_forall in Hall. specialize (Hall c Hc).
    rewrite !elem_of_app in Hall.
    destruct Hall as [?|[?|[?|?]]];
      [exists "lower"%string | exists "upper"%string
      | exists "digits"%string | exists "symbols"%string]; eauto.
  - intros [[_ ?]|[[_ ?]|[[_ ?]|[_ ?]]]];
      [exists "lower"%string | exists "upper"%string
      | exists "digits"%string | exists "symbols"%string]; eauto.
Qed.

(** X6: when the symbols set is not overridden, the four slices of
    [build_pool_map] partition the pool that [build_pool] returned: every
    pool character lies in the slice of exactly one class. *)
Theorem slices_partition_pool (a : args) (pool : list char)
    (class_names : list string) :
  build_pool a = Ok (pool, class_names) → symbols_set a = None →
  ∀ c, c ∈ pool →
       ∃ name, c ∈ class_slice pool name ∧
               ∀ name', c ∈ class_slice pool name' → name' = name.
Proof.
  intros Hpool Hsym c Hc.
  pose proof (proj1 (elem_of_build_pool a pool class_names c Hpool) Hc)
    as [Hcand _].
  destruct (candidate_in_base a c Hsym Hcand) as (name & base & Hbase & Hin).
  exists name. split.
  - apply elem_of_class_slice. eauto.
  - intros name' (_ & base' & Hbase' & Hin')%elem_of_class_slice.
    destruct (decide (name' = name)) as [|Hne]; [done|]. exfalso.
    by apply (class_base_disjoint name' name base' base c).
Qed.

Lemma slices_partition_pool_witness :
  ∃ name,
    100%N ∈ class_slice (chars_of "23456789defghijkmnpqrstuvwxyz") name ∧
    ∀ name',
      100%N ∈ class_slice (chars_of "23456789defghijkmnpqrstuvwxyz") name' →
      name' = name.
Proof.
  apply (slices_partition_pool filtered_args _ ["lower"; "digits"]%string).
  - vm_compute. reflexivity.
  - reflexivity.
  - decide_by_vm.
Defined.

(** ** [pick_from_each_class]: when it succeeds, how it fails *)

Lemma choice_Err {A : Type} (s : list A) (t : tape) (e : error) :
  choice s t = Err e → s = [] ∧ e = IndexError.
Proof.
  destruct s as [|x s]; [by intros [= <-]|]. intros Herr.
  destruct (choice_total (x :: s) t) as (c & t' & Hok); [done|]. congruence.
Qed.

Lemma pick_loop_Err (class_names : list string)
    (pool_map : gmap string (list char)) (picks : list char) (t : tape)
    (e : error) :
  pick_loop class_names pool_map picks t = Err e →
  ∃ n, n ∈ class_names ∧ n ≠ "url_safe"%string ∧
       ((pool_map !! n = None ∧ e = KeyError n) ∨
        (pool_map !! n = Some [] ∧ e = IndexError)).
Proof.
  revert picks t. induction class_names as [|name rest IH]; intros picks t.
  - discriminate.
  - cbn [pick_loop]. destruct (decide (name = "url_safe"%string)) as [->|Hne].
    { intros (n & ? & ?)%IH. exists n. split; [by right | done]. }
    destruct (pool_map !! name) as [s|] eqn:Hs.
    + intros [Hc|(c & t1 & _ & Hrec)]%bind_Err.
      * apply choice_Err in Hc as [-> ->]. exists name.
        split_and!; [by left | done | by right].
      * apply IH in Hrec as (n & ? & ?). exists n. split; [by right | done].
    + intros [= <-]. exists name. split_and!; [by left | done | by left].
Qed.

(** X7: [pick_from_each_class] returns picks exactly when every class
    name other than [url_safe] is a key of the pool map with a non-empty
    slice, and then it returns one pick per such name. Otherwise it raises
    [KeyError] for a name that is no key, or [IndexError] for a name whose
    slice is empty. *)
Theorem pick_from_each_class_outcome (class_names : list string)
    (pool_map : gmap string (list char)) (t : tape) :
  ((∃ picks t', pick_from_each_class class_names pool_map t = Ok (picks, t'))
   ↔ ∀ n, n ∈ class_names → n ≠ "url_safe"%string →
          ∃ s, pool_map !! n = Some s ∧ s ≠ []) ∧
  (∀ picks t',
     pick_from_each_class class_names pool_map t = Ok (picks, t') →
     List.length picks = List.length (seeded_classes class_names)) ∧
  (∀ e, pick_from_each_class class_names pool_map t = Err e →
        ∃ n, n ∈ class_names ∧
             ((pool_map !! n = None ∧ e = KeyError n) ∨
              (pool_map !! n = Some [] ∧ e = IndexError))).
Proof.
  unfold pick_from_each_class. split_and!.
  - split; [|apply pick_loop_total].
    intros (picks & t' & (new & _ & Hnew)%pick_loop_Ok) n Hn Hne.
    assert (Hin : n ∈ seeded_classes class_names)
      by by apply list_elem_of_filter.
    apply list_elem_of_lookup in Hin as [i Hi].
    destruct (Forall2_lookup_l _ _ _ _ _ Hnew Hi) as (c & _ & s & Hs & Hc).
    exists s. split; [done|]. intros ->. by apply elem_of_nil in Hc.
  - intros picks t' (new & -> & Hnew)%pick_loop_Ok.
    by rewrite (Forall2_length _ _ _ Hnew).
  - intros e (n & Hn & _ & Hcase)%pick_loop_Err. eauto.
Qed.

Lemma pick_from_each_class_outcome_witness :
  ∃ n, n ∈ ["lower"; "binary"]%string ∧
       ((build_pool_map sample_pool !! n = None ∧
         KeyError "binary" = KeyError n) ∨
        (build_pool_map sample_pool !! n = Some [] ∧
         KeyError "binary" = IndexError)).
Proof.
  apply (pick_from_each_class_outcome ["lower"; "binary"]%string
           (build_pool_map sample_pool) sample_tape).
  vm_compute. reflexivity.
Defined.

(** ** [generate_passwords] without the validation *)

Lemma generate_core_in_pool (pool : list char) (class_names : list string)
    (a : args) (t : tape) (core : list char) (t' : tape) :
  generate_core pool class_names a (build_pool_map pool) t = Ok (core, t') →
  ∀ c, c ∈ core → c ∈ pool.
Proof.
  intros (seeds & new & Hperm & Hseeds & _ & Hin & _)%generate_core_Ok c.
  rewrite Hperm, elem_of_app. intros [Hc|Hc]; [|by apply Hin].
  unfold seeds_of in Hseeds. destruct (require_classes a && negb (url_safe a)).
  - by eapply drawn_in_pool.
  - subst seeds. by apply elem_of_nil in Hc.
Qed.

Lemma generate_core_length (pool : list char) (class_names : list string)
    (a : args) (t : tape) (core : list char) (t' : tape) :
  generate_core pool class_names a (build_pool_map pool) t = Ok (core, t') →
  Z.of_nat (List.length core)
  = Z.max (length_arg a)
          (if require_classes a && negb (url_safe a)
           then Z.of_nat (List.length (seeded_classes class_names))
           else 0).
Proof.
  intros (seeds & new & Hperm & Hseeds & Hlen & _)%generate_core_Ok.
  rewrite (Permutation_length Hperm), length_app, Hlen.
  assert (Hcount : Z.of_nat (List.length seeds)
                   = if require_classes a && negb (url_safe a)
                     then Z.of_nat (List.length (seeded_classes class_names))
                     else 0).
  { unfold seeds_of in Hseeds.
    destruct (require_classes a && negb (url_safe a)).
    - by rewrite (Forall2_length _ _ _ Hseeds).
    - by subst seeds. }
  rewrite <- Hcount. unfold remaining_of.
  destruct (Z.ltb_spec (length_arg a - Z.of_nat (List.length seeds)) 0); lia.
Qed.

(** X8: no character that a filter of [build_pool] removes reaches a
    password core: on the pool and classes [build_pool] returned, every
    character of every generated core is a candidate character that is
    neither excluded, nor whitespace, nor (with [no_ambiguous] and without
    [url_safe]) ambiguous. No validation is needed for this. *)
Theorem generated_cores_respect_filters (a : args) (pool : list char)
    (class_names : list string) (t : tape) (pwds : list (list char))
    (t' : tape) :
  build_pool a = Ok (pool, class_names) →
  generate_passwords pool class_names a t = Ok (pwds, t') →
  Forall (λ pwd, ∀ c, c ∈ core_of a pwd →
                      candidate a c ∧ ¬ filtered_out a c) pwds.
Proof.
  intros Hpool Hrun.
  apply (generate_passwords_Forall (λ core, ∀ c, c ∈ core → c ∈ pool))
    in Hrun as [_ Hall].
  - eapply Forall_impl; [exact Hall|]. intros pwd [_ Hin] c Hc.
    by apply (elem_of_build_pool a pool class_names c Hpool), Hin.
  - intros t1 core t2. apply generate_core_in_pool.
Qed.

Lemma generated_cores_respect_filters_witness :
  Forall (λ pwd, ∀ c, c ∈ core_of filtered_args pwd →
                      candidate filtered_args c ∧
                      ¬ filtered_out filtered_args c)
         [chars_of "z5uj"].
Proof.
  apply (generated_cores_respect_filters filtered_args
           (chars_of "23456789defghijkmnpqrstuvwxyz")
           ["lower"; "digits"]%string [23; 3; 14; 28; 2; 0; 1]%nat _ []).
  - vm_compute. reflexivity.
  - vm_compute. reflexivity.
Defined.

(** X9: the core of every generated password has as many characters as
    the larger of the requested length and the number of seeded classes,
    whether or not the configuration was validated: a length below the
    number of required classes is exceeded, and a length of zero or less
    without seeding gives an empty core. *)
Theorem generated_core_length (pool : list char) (class_names : list string)
    (a : args) (t : tape) (pwds : list (list char)) (t' : tape) :
  generate_passwords pool class_names a t = Ok (pwds, t') →
  Forall (λ pwd,
            Z.of_nat (List.length (core_of a pwd))
            = Z.max (length_arg a)
                    (if require_classes a && negb (url_safe a)
                     then Z.of_nat (List.length (seeded_classes class_names))
                     else 0)) pwds.
Proof.
  intros Hrun.
  apply (generate_passwords_Forall
           (λ core, Z.of_nat (List.length core)
                    = Z.max (length_arg a)
                        (if require_classes a && negb (url_safe a)
                         then Z.of_nat
                                (List.length (seeded_classes class_names))
                         else 0))) in Hrun as [_ Hall].
  - eapply Forall_impl; [exact Hall|]. by intros pwd [_ ?].
  - intros t1 core t2. apply generate_core_length.
Qed.

Lemma generated_core_length_witness :
  Forall (λ pwd,
            Z.of_nat (List.length (core_of short_args pwd))
            = Z.max (length_arg short_args)
                    (if require_classes short_args
                        && negb (url_safe short_args)
                     then Z.of_nat
                            (List.length (seeded_classes sample_classes))
                     else 0)) [chars_of "e1"].
Proof.
  apply (generated_core_length sample_pool sample_classes short_args
           [4; 1; 1]%nat _ []).
  vm_compute. reflexivity.
Defined.

Lemma available_nil (pool : list char) : available pool [] = pool.
Proof.
  unfold available. induction pool as [|c pool IH]; [done|].
  rewrite filter_cons_True by apply not_elem_of_empty. by rewrite IH.
Qed.

Lemma generate_loop_fails (n : nat) (pool : list char)
    (class_names : list string) (a : args)
    (pool_map : gmap string (list char)) (passwords : list (list char))
    (t : tape) (e : error) :
  (∀ t1, generate_core pool class_names a pool_map t1 = Err e) →
  generate_loop (S n) pool class_names a pool_map passwords t = Err e.
Proof. intros Hcore. cbn [generate_loop]. apply bind_Err. by left. Qed.

Lemma count_positive (a : args) :
  0 < count a → ∃ n, Z.to_nat (count a) = S n.
Proof. intros Hc. exists (Z.to_nat (count a) - 1)%nat. lia. Qed.

(** X10: without seeding, the [InsufficientUniqueChars] exit of the
    no-repeat fill is taken exactly when the validator would have reported
    [PoolTooSmall]: with at least one password to produce and a length
    above the pool size every run exits with it, and otherwise every run
    returns passwords. *)
Theorem unseeded_no_repeat_outcome (pool : list char)
    (class_names : list string) (a : args) :
  no_repeat a = true → require_classes a && negb (url_safe a) = false →
  (0 < count a → Z.of_nat (List.length pool) < length_arg a →
     ∀ t, generate_passwords pool class_names a t
          = Err InsufficientUniqueChars) ∧
  (count a ≤ 0 ∨ length_arg a ≤ Z.of_nat (List.length pool) →
     ∀ t, ∃ pwds t',
       generate_passwords pool class_names a t = Ok (pwds, t')).
Proof.
  intros Hnr Hseed.
  assert (Hrem : remaining_of a [] = Z.max 0 (length_arg a)).
  { unfold remaining_of. cbn [List.length Z.of_nat]. rewrite Z.sub_0_r.
    destruct (Z.ltb_spec (length_arg a) 0); lia. }
  split.
  - intros [n Hn]%count_positive Hsmall t. unfold generate_passwords.
    rewrite Hn. apply generate_loop_fails. intros t1.
    unfold generate_core, seed_chars. rewrite Hseed.
    apply bind_Err. right. exists [], t1. split; [done|].
    apply bind_Err. left. unfold fill_chars. rewrite Hnr, available_nil.
    destruct (secure_shuffle_total pool t1) as (av & t2 & Hav).
    apply bind_Err. right. exists av, t2. split; [done|].
    apply secure_shuffle_Ok, Permutation_length in Hav.
    destruct (Z.ltb_spec (Z.of_nat (List.length av)) (remaining_of a []));
      [done | lia].
  - intros Hcase t. unfold generate_passwords.
    destruct (decide (count a ≤ 0)) as [Hc|Hc].
    { replace (Z.to_nat (count a)) with 0%nat by lia. by eexists _, _. }
    apply generate_loop_total. intros t1.
    unfold generate_core, seed_chars. rewrite Hseed.
    destruct (secure_shuffle_total pool t1) as (av & t2 & Hav).
    pose proof (Permutation_length (secure_shuffle_Ok _ _ _ _ Hav)) as Hlen.
    destruct (secure_shuffle_total
                ([] ++ take (Z.to_nat (remaining_of a [])) av) t2)
      as (core & t3 & Hcore).
    exists core, t3.
    apply bind_Ok. exists [], t1. split; [done|].
    apply bind_Ok. exists ([] ++ take (Z.to_nat (remaining_of a [])) av), t2.
    split; [|done]. unfold fill_chars. rewrite Hnr, available_nil.
    apply bind_Ok. exists av, t2. split; [done|].
    destruct (Z.ltb_spec (Z.of_nat (List.length av)) (remaining_of a []));
      [lia | done].
Qed.

Lemma unseeded_no_repeat_outcome_witness :
  generate_passwords (chars_of "abcde") ["lower"]%string
    (mk_args 6 1 true false false false None [] false true false false [] [])
    sample_tape = Err InsufficientUniqueChars.
Proof.
  apply (unseeded_no_repeat_outcome (chars_of "abcde") ["lower"]%string
           (mk_args 6 1 true false false false None [] false true false false
                    [] [])); reflexivity.
Defined.

(** X11: the validator does not look at the pool when neither
    [no_repeat] nor [require_classes] is set: it accepts the empty pool
    for every length of at least 1, and generation then raises
    [IndexError] on its first draw. *)
Theorem empty_pool_passes_validation (class_names : list string) (a : args) :
  no_repeat a = false → require_classes a = false → 1 ≤ length_arg a →
  ensure_requirements (length_arg a) class_names (require_classes a)
    (no_repeat a) [] = Ok tt ∧
  (0 < count a →
     ∀ t, generate_passwords [] class_names a t = Err IndexError).
Proof.
  intros Hnr Hrc Hlen. split.
  - unfold ensure_requirements. rewrite Hnr, Hrc.
    by destruct (Z.ltb_spec (length_arg a) 1); [lia|].
  - intros [n Hn]%count_positive t. unfold generate_passwords. rewrite Hn.
    apply generate_loop_fails. intros t1.
    unfold generate_core, seed_chars. rewrite Hrc. cbn [andb].
    apply bind_Err. right. exists [], t1. split; [done|].
    apply bind_Err. left. unfold fill_chars. rewrite Hnr.
    assert (Hrem : ∃ k, Z.to_nat (remaining_of a []) = S k).
    { exists (Z.to_nat (length_arg a) - 1)%nat. unfold remaining_of.
      cbn [List.length Z.of_nat]. rewrite Z.sub_0_r.
      destruct (Z.ltb_spec (length_arg a) 0); lia. }
    destruct Hrem as [k ->]. reflexivity.
Qed.

Lemma empty_pool_passes_validation_witness :
  ensure_requirements 16 ["lower"]%string false false [] = Ok tt ∧
  (0 < 1 → ∀ t, generate_passwords [] ["lower"]%string all_classes_args t
                = Err IndexError).
Proof.
  apply (empty_pool_passes_validation ["lower"]%string all_classes_args);
    [reflexivity | reflexivity | discriminate].
Defined.

(** X12: with [no_repeat] and a length equal to the pool size, every core
    generated on a validated configuration is a permutation of the whole
    pool. *)
Theorem no_repeat_full_length (pool : list char) (class_names : list string)
    (a : args) (t : tape) (pwds : list (list char)) (t' : tape) :
  NoDup pool → is_active_classes class_names →
  ensure_requirements (length_arg a) class_names (require_classes a)
    (no_repeat a) pool = Ok tt →
  no_repeat a = true → length_arg a = Z.of_nat (List.length pool) →
  generate_passwords pool class_names a t = Ok (pwds, t') →
  Forall (λ pwd, core_of a pwd ≡ₚ pool) pwds.
Proof.
  intros Hpool [Hnd Hwf] Hvalid Hnr Hfull Hrun.
  apply (generate_passwords_Forall (λ core, core ≡ₚ pool)) in Hrun
    as [_ Hall].
  - eapply Forall_impl; [exact Hall|]. by intros pwd [_ ?].
  - intros t1 core t2 Hcore.
    destruct (generate_core_shape a pool class_names Hvalid Hwf t1 core t2 Hcore)
      as [Hlen Hin].
    pose proof (generate_core_NoDup a pool class_names Hnd Hpool t1 core t2
                  Hnr Hcore) as Hcnd.
    apply submseteq_length_Permutation; [by apply NoDup_submseteq | lia].
Qed.

Lemma no_repeat_full_length_witness :
  Forall (λ pwd, core_of full_length_args pwd ≡ₚ chars_of "ab1")
         [chars_of "1ab"].
Proof.
  apply (no_repeat_full_length (chars_of "ab1") sample_classes
           full_length_args [1; 0; 0; 2; 1]%nat _ [1]%nat).
  - decide_by_vm.
  - split; [decide_by_vm|]. intros Hin. exfalso. revert Hin. decide_by_vm.
  - vm_compute. reflexivity.
  - reflexivity.
  - reflexivity.
  - vm_compute. reflexivity.
Defined.

(** ** [generate_passwords]: every admissible output can be drawn *)

Lemma choice_reaches {A : Type} (s : list A) (c : A) :
  c ∈ s → ∃ j, ∀ rest, choice s (j :: rest) = Ok (c, rest).
Proof.
  intros [j Hj]%list_elem_of_lookup. exists j. intros rest.
  pose proof (lookup_lt_Some _ _ _ Hj) as Hlt.
  destruct s as [|x s]; [simpl in Hlt; lia|]. unfold choice.
  apply bind_Ok. exists j, rest. split; [by apply randbelow_small|].
  by rewrite Hj.
Qed.

Lemma fill_with_repeats_reaches (pool new : list char) :
  (∀ c, c ∈ new → c ∈ pool) →
  ∃ draws, ∀ chars rest,
    fill_with_repeats (List.length new) pool chars (draws ++ rest)
    = Ok (chars ++ new, rest).
Proof.
  induction new as [|c new IH]; intros Hin.
  - exists []. intros chars rest. by rewrite app_nil_r.
  - destruct (choice_reaches pool c) as [j Hj]; [apply Hin; by left|].
    destruct IH as [draws Hdraws]; [intros x Hx; apply Hin; by right|].
    exists (j :: draws). intros chars rest.
    cbn [List.length fill_with_repeats]. apply bind_Ok.
    exists c, (draws ++ rest). split; [apply Hj|].
    by rewrite Hdraws, <- app_assoc.
Qed.

Lemma generate_loop_reaches (Q : list char → Prop) (pool : list char)
    (class_names : list string) (a : args)
    (pool_map : gmap string (list char)) (cores : list (list char)) :
  (∀ core, Q core → ∃ draws, ∀ rest,
     generate_core pool class_names a pool_map (draws ++ rest)
     = Ok (core, rest)) →
  Forall Q cores →
  ∃ draws, ∀ passwords rest,
    generate_loop (List.length cores) pool class_names a pool_map passwords
      (draws ++ rest)
    = Ok (passwords ++ map (decorate a) cores, rest).
Proof.
  intros Hcore Hall. induction Hall as [|core cores HQ _ IH].
  - exists []. intros passwords rest. by rewrite app_nil_r.
  - destruct (Hcore core HQ) as [d1 Hd1]. destruct IH as [d2 Hd2].
    exists (d1 ++ d2). intros passwords rest.
    cbn [List.length generate_loop]. apply bind_Ok.
    exists core, (d2 ++ rest). split; [by rewrite <- app_assoc|].
    rewrite Hd2. cbn [map]. by rewrite <- app_assoc.
Qed.

Lemma unseeded_remaining (a : args) (core : list char) :
  Z.of_nat (List.length core) = Z.max 0 (length_arg a) →
  Z.to_nat (remaining_of a []) = List.length core.
Proof.
  intros Hlen. unfold remaining_of. cbn [List.length Z.of_nat].
  rewrite Z.sub_0_r. destruct (Z.ltb_spec (length_arg a) 0); lia.
Qed.

Lemma repeats_core_reaches (pool : list char) (class_names : list string)
    (a : args) (core : list char) :
  no_repeat a = false → require_classes a && negb (url_safe a) = false →
  Z.of_nat (List.length core) = Z.max 0 (length_arg a) →
  (∀ c, c ∈ core → c ∈ pool) →
  ∃ draws, ∀ rest,
    generate_core pool class_names a (build_pool_map pool) (draws ++ rest)
    = Ok (core, rest).
Proof.
  intros Hnr Hseed Hlen Hin.
  destruct (fill_with_repeats_reaches pool core Hin) as [d1 Hd1].
  destruct (secure_shuffle_reaches_any core core) as (d2 & _ & Hd2); [done|].
  exists (d1 ++ d2). intros rest. unfold generate_core, seed_chars.
  rewrite Hseed. apply bind_Ok. exists [], ((d1 ++ d2) ++ rest).
  split; [done|]. apply bind_Ok. exists core, (d2 ++ rest). split; [|done].
  unfold fill_chars. rewrite Hnr, (unseeded_remaining a core Hlen).
  rewrite <- app_assoc. apply (Hd1 []).
Qed.

Lemma no_repeat_core_reaches (pool : list char) (class_names : list string)
    (a : args) (core : list char) :
  NoDup pool →
  no_repeat a = true → require_classes a && negb (url_safe a) = false →
  Z.of_nat (List.length core) = Z.max 0 (length_arg a) →
  NoDup core → (∀ c, c ∈ core → c ∈ pool) →
  ∃ draws, ∀ rest,
    generate_core pool class_names a (build_pool_map pool) (draws ++ rest)
    = Ok (core, rest).
Proof.
  intros Hpool Hnr Hseed Hlen Hnd Hin.
  set (others := filter (λ c : char, ¬ (c ∈ core)) pool).
  assert (Hperm : core ++ others ≡ₚ pool).
  { etrans; [|apply (filter_app_complement (λ c : char, c ∈ core) pool)].
    apply Permutation_app; [|done]. symmetry.
    apply NoDup_Permutation; [by apply NoDup_filter | done |].
    intros c. rewrite list_elem_of_filter. split; [tauto | auto]. }
  destruct (secure_shuffle_reaches_any pool (core ++ others) Hperm)
    as (d1 & _ & Hd1).
  destruct (secure_shuffle_reaches_any core core) as (d2 & _ & Hd2); [done|].
  exists (d1 ++ d2). intros rest. unfold generate_core, seed_chars.
  rewrite Hseed. apply bind_Ok. exists [], ((d1 ++ d2) ++ rest).
  split; [done|]. apply bind_Ok. exists core, (d2 ++ rest). split; [|done].
  unfold fill_chars. rewrite Hnr, available_nil.
  apply bind_Ok. exists (core ++ others), (d2 ++ rest).
  split; [by rewrite <- app_assoc|].
  rewrite (unseeded_remaining a core Hlen), take_app_length.
  destruct (Z.ltb_spec (Z.of_nat (List.length (core ++ others)))
              (remaining_of a [])) as [Hlt|_]; [|done].
  rewrite length_app in Hlt.
  pose proof (unseeded_remaining a core Hlen). lia.
Qed.

(** X13: with repeats allowed and no seeding, every output of the right
    shape can be drawn: for any [count] strings of [length] pool
    characters there are draws on which [generate_passwords] returns
    exactly these strings as cores, in order. *)
Theorem repeats_allowed_support (pool : list char)
    (class_names : list string) (a : args) (cores : list (list char)) :
  no_repeat a = false → require_classes a && negb (url_safe a) = false →
  cores_for a cores →
  Forall (λ core, ∀ c, c ∈ core → c ∈ pool) cores →
  ∃ draws, ∀ rest,
    generate_passwords pool class_names a (draws ++ rest)
    = Ok (map (decorate a) cores, rest).
Proof.
  intros Hnr Hseed [Hcount Hlen] Hin.
  destruct (generate_loop_reaches
              (λ core, Z.of_nat (List.length core) = Z.max 0 (length_arg a) ∧
                       ∀ c, c ∈ core → c ∈ pool)
              pool class_names a (build_pool_map pool) cores)
    as [draws Hdraws].
  - intros core [? ?]. by apply repeats_core_reaches.
  - apply Forall_and. by split.
  - exists draws. intros rest. unfold generate_passwords.
    rewrite <- Hcount. apply (Hdraws []).
Qed.

(** X14: with [no_repeat], no seeding and a pool without duplicates, every
    output of the right shape can be drawn: for any [count]
    duplicate-free strings of [length] pool characters there are draws on
    which [generate_passwords] returns exactly these strings as cores. *)
Theorem no_repeat_support (pool : list char)
    (class_names : list string) (a : args) (cores : list (list char)) :
  NoDup pool →
  no_repeat a = true → require_classes a && negb (url_safe a) = false →
  cores_for a cores →
  Forall (λ core, NoDup core ∧ ∀ c, c ∈ core → c ∈ pool) cores →
  ∃ draws, ∀ rest,
    generate_passwords pool class_names a (draws ++ rest)
    = Ok (map (decorate a) cores, rest).
Proof.
  intros Hpool Hnr Hseed [Hcount Hlen] Hin.
  destruct (generate_loop_reaches
              (λ core, Z.of_nat (List.length core) = Z.max 0 (length_arg a) ∧
                       NoDup core ∧ ∀ c, c ∈ core → c ∈ pool)
              pool class_names a (build_pool_map pool) cores)
    as [draws Hdraws].
  - intros core (? & ? & ?). by apply no_repeat_core_reaches.
  - apply Forall_and. by split.
  - exists draws. intros rest. unfold generate_passwords.
    rewrite <- Hcount. apply (Hdraws []).
Qed.

Lemma repeats_allowed_support_witness :
  ∃ draws, ∀ rest,
    generate_passwords sample_pool ["lower"]%string two_by_two_args
      (draws ++ rest)
    = Ok (map (decorate two_by_two_args) [chars_of "aa"; chars_of "b0"],
          rest).
Proof.
  apply (repeats_allowed_support sample_pool ["lower"]%string
           two_by_two_args [chars_of "aa"; chars_of "b0"]).
  - reflexivity.
  - reflexivity.
  - split; [reflexivity | decide_by_vm].
  - repeat (constructor; [apply Forall_forall; decide_by_vm|]). constructor.
Defined.

Lemma no_repeat_support_witness :
  ∃ draws, ∀ rest,
    generate_passwords sample_pool ["lower"]%string
      two_by_two_no_repeat_args (draws ++ rest)
    = Ok (map (decorate two_by_two_no_repeat_args)
              [chars_of "fa"; chars_of "b0"], rest).
Proof.
  apply (no_repeat_support sample_pool ["lower"]%string
           two_by_two_no_repeat_args [chars_of "fa"; chars_of "b0"]).
  - decide_by_vm.
  - reflexivity.
  - reflexivity.
  - split; [reflexivity | decide_by_vm].
  - repeat (constructor;
            [split; [decide_by_vm | apply Forall_forall; decide_by_vm]|]).
    constructor.
Defined.

(** ** The CSV rows of [_print_csv] *)

Lemma needs_quoting_spec (p : list char) :
  needs_quoting p = true ↔ comma ∈ p ∨ dquote ∈ p ∨ newline ∈ p.
Proof.
  unfold needs_quoting. cbn [existsb].
  rewrite ?orb_false_r, !orb_true_iff, !bool_decide_eq_true. tauto.
Qed.

Lemma double_quotes_inj (p q : list char) :
  double_quotes p = double_quotes q → p = q.
Proof.
  unfold double_quotes. revert q.
  induction p as [|c p IH]; intros [|d q]; cbn [flat_map].
  - done.
  - destruct (decide (d = dquote)); discriminate.
  - destruct (decide (c = dquote)); discriminate.
  - destruct (decide (c = dquote)) as [->|Hc],
      (decide (d = dquote)) as [->|Hd]; cbn [app].
    + intros [= Heq]. f_equal. by apply IH.
    + intros [= <- _]. done.
    + intros [= -> _]. done.
    + intros [= -> Heq]. f_equal. by apply IH.
Qed.

Lemma csv_row_inj (p q : list char) : csv_row p = csv_row q → p = q.
Proof.
  unfold csv_row.
  destruct (needs_quoting p) eqn:Hp, (needs_quoting q) eqn:Hq.
  - intros [= Heq]. apply app_inj_tail in Heq as [Heq _].
    by apply double_quotes_inj.
  - intros <-. assert (Hq' : needs_quoting
                               ([dquote] ++ double_quotes p ++ [dquote])
                             = true).
    { apply needs_quoting_spec. right. left. by left. }
    congruence.
  - intros ->. assert (Hp' : needs_quoting
                               ([dquote] ++ double_quotes q ++ [dquote])
                             = true).
    { apply needs_quoting_spec. right. left. by left. }
    congruence.
  - done.
Qed.

(** X15: the CSV output determines the passwords: two lists of passwords
    printed as the same texts by [_print_csv] are the same list, and two
    passwords with the same row are the same password. *)
Theorem print_csv_injective :
  (∀ p q, csv_row p = csv_row q → p = q) ∧
  (∀ l1 l2, _print_csv l1 = _print_csv l2 → l1 = l2).
Proof.
  split; [apply csv_row_inj|]. unfold _print_csv. intros l1 l2 [= Heq].
  revert l2 Heq. induction l1 as [|p l1 IH]; intros [|q l2]; try done.
  cbn [map]. intros [= Hrow Hrest]. f_equal; [by apply csv_row_inj|].
  by apply IH.
Qed.

Lemma print_csv_injective_witness :
  [chars_of "a,b"; chars_of "c"] = [chars_of "a,b"; chars_of "c"].
Proof. apply (proj2 print_csv_injective). reflexivity. Defined.






(** ** [main]: failures and output *)

Lemma stdout_of_Stdout (texts : list (list char)) :
  stdout_of (map Stdout texts) = texts.
Proof. induction texts as [|x texts IH]; [done|]. simpl. by f_equal. Qed.

Lemma clipboard_of_Stdout (texts : list (list char)) :
  clipboard_of (map Stdout texts) = [].
Proof. by induction texts. Qed.

Lemma stderr_of_Stdout (texts : list (list char)) :
  stderr_of (map Stdout texts) = [].
Proof. by induction texts. Qed.

Section main_properties.
Context `{FloatOps float}.
Variable format_1f : float → list char.
Variable json_dumps : list (list char) → list char.

(** The run of [main] once the pool is built and validated. *)
Lemma main_run (a : args) (o : output_args) (t : tape) (pool : list char)
    (class_names : list string) :
  build_pool a = Ok (pool, class_names) →
  ensure_requirements (length_arg a) class_names (require_classes a)
    (no_repeat a) pool = Ok tt →
  ∃ pwds events t',
    generate_passwords pool class_names a t = Ok (pwds, t') ∧
    main format_1f json_dumps a o t = Ok (events, t') ∧
    stdout_of events
    = match format_arg o with
      | plain => [join (separator o) pwds]
      | json => [json_dumps pwds]
      | csv => _print_csv pwds
      end ∧
    clipboard_of events = (if copy o then take 1 pwds else []) ∧
    stderr_of events
    = if show_entropy o
      then [entropy_message format_1f
              (bits_of_entropy (Z.of_nat (List.length pool)) (length_arg a))]
      else [].
Proof.
  intros Hbuild Hvalid.
  destruct (build_pool_data_model a pool class_names Hbuild)
    as [[Hpool Hne] [Hnd Hwf]].
  destruct (generate_loop_total (Z.to_nat (count a)) pool class_names a
              (build_pool_map pool) [] t) as (pwds & t' & Hgen).
  { intros t1. by apply generate_core_total. }
  pose proof Hgen as (new & Hnew & Hlen & _)%generate_loop_Ok.
  simpl in Hnew. subst new.
  exists pwds. unfold main. rewrite Hbuild, Hvalid.
  unfold mbind at 1, M_bind at 1. unfold generate_passwords. rewrite Hgen.
  destruct (format_arg o).
  - destruct (Z.eqb_spec (count a) 1) as [Hone|_].
    + rewrite Hone in Hlen. destruct pwds as [|p [|??]]; try discriminate.
      eexists _, t'. split_and!; [done | reflexivity | ..];
        destruct (show_entropy o), (copy o); reflexivity.
    + eexists _, t'. split_and!; [done | reflexivity | ..];
        destruct (show_entropy o), (copy o), pwds; reflexivity.
  - eexists _, t'. split_and!; [done | reflexivity | ..];
      destruct (show_entropy o), (copy o), pwds; reflexivity.
  - eexists _, t'. split_and!; [done | reflexivity | ..];
      destruct (show_entropy o), (copy o), pwds; cbn;
      rewrite ?stdout_of_Stdout, ?clipboard_of_Stdout, ?stderr_of_Stdout;
      reflexivity.
Qed.

(** X17: [main] fails only where [build_pool] or [ensure_requirements]
    does, and with their error: once both pass, generation and output go
    through on every outcome of the random source, the read of the first
    password included. *)
Theorem main_failures (a : args) (o : output_args) (t : tape) (e : error) :
  main format_1f json_dumps a o t = Err e ↔
  build_pool a = Err e ∨
  ∃ pool class_names,
    build_pool a = Ok (pool, class_names) ∧
    ensure_requirements (length_arg a) class_names (require_classes a)
      (no_repeat a) pool = Err e.
Proof.
  destruct (build_pool a) as [[pool class_names]|e0] eqn:Hbuild.
  - destruct (ensure_requirements (length_arg a) class_names
                (require_classes a) (no_repeat a) pool) as [[]|e1] eqn:Hvalid.
    + destruct (main_run a o t pool class_names Hbuild Hvalid)
        as (pwds & events & t' & _ & Hmain & _).
      rewrite Hmain. split; [discriminate|].
      intros [?|(pool' & cn' & [= <- <-] & Herr)]; congruence.
    + unfold main, raise. rewrite Hbuild, Hvalid. split.
      * intros [= <-]. right. eauto.
      * intros [?|(pool' & cn' & [= <- <-] & Herr)]; congruence.
  - unfold main, raise. rewrite Hbuild. split.
    + intros [= <-]. by left.
    + intros [?|(pool' & cn' & ? & _)]; congruence.
Qed.

End main_properties.

Lemma main_failures_witness :
  @main Z Z_FloatOps (λ _, chars_of "8.0") (@concat char) all_excluded_args
    main_sample_output_args sample_tape = Err EmptyPool.
Proof.
  apply (@main_failures Z Z_FloatOps (λ _, chars_of "8.0") (@concat char)).
  left. vm_compute. reflexivity.
Defined.

